(** * EventPlayback: the capture/playback engine of [main.py]

    A shallow embedding of the data model ([EventType], [Event], [Macro]),
    the [Recorder], the [Player] and the key-name conversions
    ([Recorder._key_name], [Player._to_key]), followed by the properties of
    the engine.

    Conventions of the embedding:
    - Python values that cross the codec boundary (the result of
      [json.load], the argument of [json.dump]) are values of [pyval];
      a Python [dict] with string keys is a [gmap string pyval];
    - Python [float] is the binary64 type [float] of the Standard Library;
    - a function that may raise returns a [result]; the exception carries the
      template of its message and the values formatted into it;
    - a Python [str] of ASCII characters is the [string] of these
      characters; [str.lower], [str.isalnum] and [len] are embedded for such
      strings ([Str.is_ascii]), which is what every table of the program
      holds, and a statement about these functions on an arbitrary string
      carries that condition. *)

From Stdlib Require Import ZArith Floats Lia Ascii String.
From stdpp Require Import gmap strings list.

Set Warnings "-register-all,-inexact-float".

Open Scope string_scope.

(** ** Python values and exceptions *)

Inductive pyval : Type :=
  | PNone
  | PBool (b : bool)
  | PInt (z : Z)
  | PFloat (f : float)
  | PStr (s : string)
  | PList (l : list pyval)
  | PDict (m : gmap string pyval).

(** Exceptions. A [ValueError] raised by the program carries its message,
    kept as the template that produced it:
    - [RequiredFieldsMissing]: "Required fields (type, timestamp) are missing"
    - [InvalidEventType v]: f"Invalid event type: {d['type']}"
    - [TimestampNotNumber v]: f"timestamp must be a number: {type(d['timestamp'])}"
    - [DataNotDict]: "Data must be in dictionary format"
    - [EventsMissing]: "Required field (events) is missing"
    - [EventsNotList]: "events must be in list format"
    - [FailedToLoadEvent i ex]: f"Failed to load event [{i}]: {str(ex)}"
    The other constructors are the built-in exceptions the interpreter
    raises on its own. *)
Inductive exn : Type :=
  | ValueError (m : message)
  | TypeError
  | KeyError
  | OverflowError
  | AttributeError
with message : Type :=
  | RequiredFieldsMissing
  | InvalidEventType (v : pyval)
  | TimestampNotNumber (v : pyval)
  | DataNotDict
  | EventsMissing
  | EventsNotList
  | FailedToLoadEvent (i : nat) (ex : exn).

Inductive result (A : Type) : Type :=
  | Ok (a : A)
  | Raise (e : exn).
Arguments Ok {A} a.
Arguments Raise {A} e.

Definition bind {A B} (m : result A) (k : A -> result B) : result B :=
  match m with
  | Ok a => k a
  | Raise e => Raise e
  end.

Notation "'let*' x ':=' m 'in' k" := (bind m (fun x => k))
  (at level 10, x name, m at level 100, k at level 200).

Definition is_ok {A} (r : result A) : bool :=
  match r with Ok _ => true | Raise _ => false end.

Module Py.

(** [v is None] *)
Definition is_none (v : pyval) : bool :=
  match v with PNone => true | _ => false end.

(** Truth value of an object, as tested by [if v:] and [and]. *)
Definition truthy (v : pyval) : bool :=
  match v with
  | PNone => false
  | PBool b => b
  | PInt z => negb (z =? 0)%Z
  | PFloat f => negb (PrimFloat.eqb f 0%float)
  | PStr s => negb (String.eqb s "")
  | PList l => match l with [] => false | _ => true end
  | PDict m => negb (bool_decide (m = ∅))
  end.

(** [v == s] for a string literal [s]. *)
Definition eq_str (v : pyval) (s : string) : bool :=
  match v with PStr s' => String.eqb s' s | _ => false end.

(** [sub in s] on strings: [sub] occurs in [s]. *)
Definition str_contains (sub s : string) : bool :=
  match String.index 0 sub s with Some _ => true | None => false end.

(** [k in d] for a string literal [k]: key membership on a dict, element
    membership on a list, substring test on a string; the other values are
    not containers and the test raises [TypeError]. *)
Definition contains (k : string) (d : pyval) : result bool :=
  match d with
  | PDict m => Ok (bool_decide (is_Some (m !! k)))
  | PList l => Ok (existsb (fun v => eq_str v k) l)
  | PStr s => Ok (str_contains k s)
  | _ => Raise TypeError
  end.

(** [d[k]] for a string literal [k]. *)
Definition getitem (d : pyval) (k : string) : result pyval :=
  match d with
  | PDict m => match m !! k with Some v => Ok v | None => Raise KeyError end
  | _ => Raise TypeError
  end.

(** [d.get(k, dflt)] on a dict. *)
Definition get (m : gmap string pyval) (k : string) (dflt : pyval) : pyval :=
  default dflt (m !! k).

(** [isinstance(v, (int, float))]; [bool] is a subclass of [int]. *)
Definition is_int_or_float (v : pyval) : bool :=
  match v with
  | PBool _ | PInt _ | PFloat _ => true
  | _ => false
  end.

(** [float(z)] for an [int]: the nearest binary64 value, ties to even;
    [OverflowError] when the result is not finite. *)
Definition float_of_int (z : Z) : result float :=
  match binary_normalize prec emax z 0 false with
  | S754_infinity _ => Raise OverflowError
  | sf => Ok (SF2Prim sf)
  end.

(** [float(v)] where [isinstance(v, (int, float))] holds. *)
Definition to_float (v : pyval) : result float :=
  match v with
  | PFloat f => Ok f
  | PInt z => float_of_int z
  | PBool b => Ok (if b then 1%float else 0%float)
  | _ => Raise TypeError
  end.

End Py.

(** ** Data models *)

Inductive EventType : Type :=
  | MOUSE_MOVE
  | MOUSE_CLICK
  | MOUSE_SCROLL
  | KEY_PRESS
  | KEY_RELEASE.

Module EventTypeM.

(** [EventType.value] *)
Definition value (t : EventType) : string :=
  match t with
  | MOUSE_MOVE => "mouse_move"
  | MOUSE_CLICK => "mouse_click"
  | MOUSE_SCROLL => "mouse_scroll"
  | KEY_PRESS => "key_press"
  | KEY_RELEASE => "key_release"
  end.

Definition members : list EventType :=
  [MOUSE_MOVE; MOUSE_CLICK; MOUSE_SCROLL; KEY_PRESS; KEY_RELEASE].

(** [EventType(v)]: the member whose value equals [v]; no member means
    [ValueError] inside the enum machinery (an unhashable [v] included). *)
Definition of_value (v : pyval) : option EventType :=
  find (fun t => Py.eq_str v (value t)) members.

End EventTypeM.

Module Event.

(** The dataclass [Event]. The optional fields hold whatever object was
    stored in them; [PNone] is the default and means absent. *)
Record t : Type := mk {
  type : EventType;
  timestamp : float;
  x : pyval;
  y : pyval;
  button : pyval;
  key : pyval;
  pressed : pyval;
  scroll_dx : pyval;
  scroll_dy : pyval;
}.

(** [getattr(self, k)] for the names [to_dict] iterates over. *)
Definition getattr (e : t) (k : string) : pyval :=
  if String.eqb k "x" then x e
  else if String.eqb k "y" then y e
  else if String.eqb k "button" then button e
  else if String.eqb k "key" then key e
  else if String.eqb k "pressed" then pressed e
  else if String.eqb k "scroll_dx" then scroll_dx e
  else if String.eqb k "scroll_dy" then scroll_dy e
  else PNone.

Definition optional_fields : list string :=
  ["x"; "y"; "button"; "key"; "pressed"; "scroll_dx"; "scroll_dy"].

(** One iteration of the loop of [to_dict]: [if v is not None: d[k] = v]. *)
Definition set_field (e : t) (d : gmap string pyval) (k : string)
  : gmap string pyval :=
  let v := getattr e k in
  if Py.is_none v then d else <[k := v]> d.

Definition to_dict (e : t) : gmap string pyval :=
  let d : gmap string pyval :=
    <["timestamp" := PFloat (timestamp e)]>
      (<["type" := PStr (EventTypeM.value (type e))]> ∅) in
  foldl (set_field e) d optional_fields.

Definition from_dict (d : pyval) : result t :=
  let* has_type := Py.contains "type" d in
  let* missing :=
    (if negb has_type then Ok true
     else let* has_ts := Py.contains "timestamp" d in Ok (negb has_ts)) in
  if (missing : bool) then Raise (ValueError RequiredFieldsMissing)
  else
    let* ty := Py.getitem d "type" in
    match EventTypeM.of_value ty with
    | None => Raise (ValueError (InvalidEventType ty))
    | Some event_type =>
        let* ts := Py.getitem d "timestamp" in
        if negb (Py.is_int_or_float ts)
        then Raise (ValueError (TimestampNotNumber ts))
        else
          let* tsf := Py.to_float ts in
          match d with
          | PDict m =>
              Ok {| type := event_type;
                    timestamp := tsf;
                    x := Py.get m "x" PNone;
                    y := Py.get m "y" PNone;
                    button := Py.get m "button" PNone;
                    key := Py.get m "key" PNone;
                    pressed := Py.get m "pressed" PNone;
                    scroll_dx := Py.get m "scroll_dx" PNone;
                    scroll_dy := Py.get m "scroll_dy" PNone |}
          | _ => Raise AttributeError
          end
    end.

End Event.

Module Macro.

(** The dataclass [Macro]. *)
Record t : Type := mk {
  name : pyval;
  events : list Event.t;
  created_at : pyval;
}.

Definition to_dict (m : t) : pyval :=
  PDict (<["events" := PList (map (fun e => PDict (Event.to_dict e)) (events m))]>
          (<["created_at" := created_at m]>
            (<["name" := name m]> ∅))).

(** The loop [for i, e in enumerate(d["events"])] with its
    [except Exception] handler; [i] is the index of the head of [l]. *)
Fixpoint load_events (i : nat) (l : list pyval) : result (list Event.t) :=
  match l with
  | [] => Ok []
  | e :: rest =>
      match Event.from_dict e with
      | Raise ex => Raise (ValueError (FailedToLoadEvent i ex))
      | Ok ev =>
          let* evs := load_events (S i) rest in
          Ok (ev :: evs)
      end
  end.

Definition from_dict (d : pyval) : result t :=
  match d with
  | PDict m =>
      match m !! "events" with
      | None => Raise (ValueError EventsMissing)
      | Some (PList l) =>
          let* evs := load_events 0 l in
          Ok {| name := Py.get m "name" (PStr "Untitled");
                events := evs;
                created_at := Py.get m "created_at" (PStr "") |}
      | Some _ => Raise (ValueError EventsNotList)
      end
  | _ => Raise (ValueError DataNotDict)
  end.

(** The property [duration]. *)
Definition duration (m : t) : float :=
  match last (events m) with
  | Some e => Event.timestamp e
  | None => 0%float
  end.

End Macro.

(** ** Native keys

    The keyboard listener hands the callbacks either a member of the
    enumeration [Key] (special keys), a [KeyCode] object (character keys;
    its [char] may be [None]), or [None] for a key it cannot identify. *)

Module Key.

(** The members of [pynput.keyboard.Key], each written with its name: the
    constructors are the names the program writes in [Player._to_key]
    ([end] is written [end_]), and [other n] is a member with any other
    name [n].

    On a backend that gives two names of the enumeration one value, the
    enumeration has a single member for both, under the first of the names
    (on xorg [Key.shift_l] evaluates to the member [shift]); the second
    constructor is then not a member of that backend: the listener never
    delivers it, and the entry of a table written with it holds the member
    of the first name. What is stated below about a member holds of the
    members a backend has. *)
Inductive t : Type :=
  | space | enter | tab | backspace | delete | esc
  | shift | shift_l | shift_r | ctrl | ctrl_l | ctrl_r
  | alt | alt_l | alt_r | alt_gr | caps_lock
  | up | down | left | right | home | end_ | page_up | page_down | insert
  | f1 | f2 | f3 | f4 | f5 | f6 | f7 | f8 | f9 | f10 | f11 | f12
  | other (n : string).

(** The attribute [name] of a member. *)
Definition name (k : t) : string :=
  match k with
  | space => "space" | enter => "enter" | tab => "tab"
  | backspace => "backspace" | delete => "delete" | esc => "esc"
  | shift => "shift" | shift_l => "shift_l" | shift_r => "shift_r"
  | ctrl => "ctrl" | ctrl_l => "ctrl_l" | ctrl_r => "ctrl_r"
  | alt => "alt" | alt_l => "alt_l" | alt_r => "alt_r" | alt_gr => "alt_gr"
  | caps_lock => "caps_lock"
  | up => "up" | down => "down" | left => "left" | right => "right"
  | home => "home" | end_ => "end"
  | page_up => "page_up" | page_down => "page_down" | insert => "insert"
  | f1 => "f1" | f2 => "f2" | f3 => "f3" | f4 => "f4" | f5 => "f5"
  | f6 => "f6" | f7 => "f7" | f8 => "f8" | f9 => "f9" | f10 => "f10"
  | f11 => "f11" | f12 => "f12"
  | other n => n
  end.

End Key.

Inductive native_key : Type :=
  | NKey (k : Key.t)
  | NKeyCode (char : option string)
  | NUnknown.

(** What [Player._to_key] returns when it is not [None]: a [Key] member or
    a one-character string. *)
Inductive key_target : Type :=
  | TKey (k : Key.t)
  | TChar (c : string).

Inductive MouseButton : Type :=
  | Button_left
  | Button_right
  | Button_middle
  | Button_unknown.

(** ** Strings: [str.lower] and [str.isalnum] on ASCII strings

    A [string] holds one ASCII character per position. On a string of
    characters below 128 the functions of this module are the methods of
    [str], and [String.length] is [len]; they say nothing of a string with
    other characters, where the methods of [str] work on code points. *)

Module Str.

(** Every character of [s] is an ASCII character. *)
Definition is_ascii (s : string) : bool :=
  forallb (fun c => (nat_of_ascii c <? 128)%nat) (list_ascii_of_string s).

Definition lower_char (c : ascii) : ascii :=
  let n := nat_of_ascii c in
  if (65 <=? n)%nat && (n <=? 90)%nat then ascii_of_nat (n + 32) else c.

Fixpoint lower (s : string) : string :=
  match s with
  | EmptyString => EmptyString
  | String c r => String (lower_char c) (lower r)
  end.

Definition isalnum_char (c : ascii) : bool :=
  let n := nat_of_ascii c in
  ((48 <=? n)%nat && (n <=? 57)%nat)
  || ((65 <=? n)%nat && (n <=? 90)%nat)
  || ((97 <=? n)%nat && (n <=? 122)%nat).

(** [s.isalnum()]: non-empty and every character alphanumeric. *)
Definition isalnum (s : string) : bool :=
  match s with
  | EmptyString => false
  | _ => forallb isalnum_char (list_ascii_of_string s)
  end.

End Str.

(** ** Recording *)

Module Recorder.

Definition INTERVAL : float := 0.02%float.
Definition EXCLUDED_HOTKEYS : list string := ["f9"; "f10"; "escape"].

(** The state of a [Recorder]. The listeners and the lock are not part of
    the model: a notification is a call of the matching handler, and
    [now] is the value [time.perf_counter()] returns inside that call. The
    pointer coordinates and scroll steps are the integers the listener
    delivers, so that [int(x)] is [x]. The observer [on_event] is called
    after each append and cannot change the buffer; it is left out. *)
Record t : Type := mk {
  _events : list Event.t;
  _start_time : float;
  _recording : bool;
  _last_move : float;
}.

Definition init : t :=
  {| _events := []; _start_time := 0%float; _recording := false;
     _last_move := 0%float |}.

Definition start (r : t) (now : float) : t :=
  if _recording r then r
  else {| _events := []; _start_time := now; _recording := true;
          _last_move := 0%float |}.

(** [stop] returns a copy of the buffer in both branches. *)
Definition stop (r : t) : t * list Event.t :=
  if negb (_recording r) then (r, _events r)
  else ({| _events := _events r; _start_time := _start_time r;
           _recording := false; _last_move := _last_move r |},
        _events r).

Definition is_recording (r : t) : bool := _recording r.

Definition event_count (r : t) : nat := length (_events r).

Definition _ts (r : t) (now : float) : float :=
  (now - _start_time r)%float.

Definition _add (r : t) (e : Event.t) : t :=
  {| _events := _events r ++ [e]; _start_time := _start_time r;
     _recording := _recording r; _last_move := _last_move r |}.

Definition set_last_move (r : t) (v : float) : t :=
  {| _events := _events r; _start_time := _start_time r;
     _recording := _recording r; _last_move := v |}.

(** [Event(type, ts, ...)] with the remaining fields left to [None]. *)
Definition blank (ty : EventType) (ts : float) : Event.t :=
  Event.mk ty ts PNone PNone PNone PNone PNone PNone PNone.

Definition move_event (ts : float) (x y : Z) : Event.t :=
  Event.mk MOUSE_MOVE ts (PInt x) (PInt y) PNone PNone PNone PNone PNone.

Definition click_event (ts : float) (x y : Z) (btn : string) (pressed : bool)
  : Event.t :=
  Event.mk MOUSE_CLICK ts (PInt x) (PInt y) (PStr btn) PNone (PBool pressed)
           PNone PNone.

Definition scroll_event (ts : float) (x y dx dy : Z) : Event.t :=
  Event.mk MOUSE_SCROLL ts (PInt x) (PInt y) PNone PNone PNone
           (PInt dx) (PInt dy).

Definition key_event (ty : EventType) (ts : float) (name : string)
           (pressed : bool) : Event.t :=
  Event.mk ty ts PNone PNone PNone (PStr name) (PBool pressed) PNone PNone.

Definition _on_move (r : t) (now : float) (x y : Z) : t :=
  if negb (_recording r) then r
  else
    let t := _ts r now in
    if (t - _last_move r <? INTERVAL)%float then r
    else _add (set_last_move r t) (move_event t x y).

Definition button_name (button : MouseButton) : string :=
  match button with
  | Button_left => "left"
  | Button_right => "right"
  | _ => "middle"
  end.

Definition _on_click (r : t) (now : float) (x y : Z) (button : MouseButton)
           (pressed : bool) : t :=
  if negb (_recording r) then r
  else _add r (click_event (_ts r now) x y (button_name button) pressed).

Definition _on_scroll (r : t) (now : float) (x y dx dy : Z) : t :=
  if negb (_recording r) then r
  else _add r (scroll_event (_ts r now) x y dx dy).

(** [_key_name]: [key.char] when the object has that attribute and it is
    not [None], otherwise [key.name] when the object has that attribute,
    otherwise [None]. A [Key] member has no [char]; a [KeyCode] has no
    [name]; [None] has neither. *)
Definition _key_name (key : native_key) : option string :=
  match key with
  | NKeyCode (Some c) => Some c
  | NKeyCode None => None
  | NKey k => Some (Key.name k)
  | NUnknown => None
  end.

(** [name and name not in self.EXCLUDED_HOTKEYS] *)
Definition recordable (name : option string) : option string :=
  match name with
  | Some n =>
      if negb (String.eqb n "") && negb (existsb (String.eqb n) EXCLUDED_HOTKEYS)
      then Some n else None
  | None => None
  end.

Definition _on_press (r : t) (now : float) (key : native_key) : t :=
  if negb (_recording r) then r
  else
    match recordable (_key_name key) with
    | Some name => _add r (key_event KEY_PRESS (_ts r now) name true)
    | None => r
    end.

Definition _on_release (r : t) (now : float) (key : native_key) : t :=
  if negb (_recording r) then r
  else
    match recordable (_key_name key) with
    | Some name => _add r (key_event KEY_RELEASE (_ts r now) name false)
    | None => r
    end.


(** What a listener delivers: one call of [_on_move], [_on_click],
    [_on_scroll], [_on_press] or [_on_release], with its arguments. *)
Inductive notification : Type :=
  | Move (x y : Z)
  | Click (x y : Z) (button : MouseButton) (pressed : bool)
  | Scroll (x y dx dy : Z)
  | Press (key : native_key)
  | Release (key : native_key).

Definition handle (r : t) (now : float) (n : notification) : t :=
  match n with
  | Move x y => _on_move r now x y
  | Click x y button pressed => _on_click r now x y button pressed
  | Scroll x y dx dy => _on_scroll r now x y dx dy
  | Press key => _on_press r now key
  | Release key => _on_release r now key
  end.

(** A run of notifications, each with the clock reading of its call. *)
Definition feed (r : t) (calls : list (float * notification)) : t :=
  foldl (fun r c => handle r (fst c) (snd c)) r calls.

End Recorder.

(** ** Playback *)

(** A call on the mouse or keyboard controller. *)
Inductive os_action : Type :=
  | SetPosition (x y : pyval)        (* self._mouse.position = (x, y) *)
  | MousePress (b : MouseButton)     (* self._mouse.press(b) *)
  | MouseRelease (b : MouseButton)   (* self._mouse.release(b) *)
  | MouseScroll (dx dy : pyval)      (* self._mouse.scroll(dx, dy) *)
  | KbPress (k : key_target)         (* self._kb.press(k) *)
  | KbRelease (k : key_target).      (* self._kb.release(k) *)

(** What the replay thread does that can be observed from outside, in the
    order it does it. *)
Inductive obs : Type :=
  | CheckStop (b : bool)     (* a read of self._stop_flag, and its value *)
  | Slept (d : float)        (* time.sleep(d), which returned *)
  | SleepRaised (d : float) (ex : exn)   (* time.sleep(d), which raised ex *)
  | Dispatch (e : Event.t)   (* a call of self._play_event(e) *)
  | OsCall (a : os_action)   (* a call on a controller *)
  | LogError                 (* logger.error in the handler of _play_event *)
  | OnError                  (* self.on_error(error_msg) *)
  | OnComplete.              (* self.on_complete() *)

Module Player.

(** The characters of [VALID_SPECIAL_CHARS]; the double quote is
    character 34. *)
Definition VALID_SPECIAL_CHARS : string :=
  "!@#$%^&*()_+-=[]{}|;:'" ++ String (ascii_of_nat 34) ",.<>?/~`".

(** The dict literal [special] of [_to_key], each value under the name the
    literal writes. *)
Definition special : gmap string Key.t :=
  list_to_map
    [ ("space", Key.space); ("enter", Key.enter); ("tab", Key.tab);
      ("backspace", Key.backspace); ("delete", Key.delete);
      ("escape", Key.esc); ("shift", Key.shift); ("shift_l", Key.shift_l);
      ("shift_r", Key.shift_r); ("ctrl", Key.ctrl); ("ctrl_l", Key.ctrl_l);
      ("ctrl_r", Key.ctrl_r); ("alt", Key.alt); ("alt_l", Key.alt_l);
      ("alt_r", Key.alt_r); ("alt_gr", Key.alt_gr);
      ("caps_lock", Key.caps_lock); ("up", Key.up); ("down", Key.down);
      ("left", Key.left); ("right", Key.right); ("home", Key.home);
      ("end", Key.end_); ("page_up", Key.page_up);
      ("page_down", Key.page_down);
      ("insert", Key.insert); ("f1", Key.f1); ("f2", Key.f2);
      ("f3", Key.f3); ("f4", Key.f4); ("f5", Key.f5); ("f6", Key.f6);
      ("f7", Key.f7); ("f8", Key.f8); ("f9", Key.f9); ("f10", Key.f10);
      ("f11", Key.f11); ("f12", Key.f12) ].

(** [_to_key(name)], for a name of ASCII characters. [name.lower()] raises
    [AttributeError] on an object that is neither [None] nor a string. *)
Definition _to_key (name : pyval) : result (option key_target) :=
  match name with
  | PNone => Ok None
  | PStr s =>
      let name_lower := Str.lower s in
      match special !! name_lower with
      | Some k => Ok (Some (TKey k))
      | None =>
          if (String.length name_lower =? 1)%nat
             && (Str.isalnum name_lower
                 || Py.str_contains name_lower VALID_SPECIAL_CHARS)
          then Ok (Some (TChar name_lower))
          else Ok None
      end
  | _ => Raise AttributeError
  end.

(** The state of a [Player]. [on_complete] and [on_error] tell whether a
    callback is registered. *)
Record t : Type := mk {
  _events : list Event.t;
  _playing : bool;
  _stop_flag : bool;
  _loop_count : Z;
  on_complete : bool;
  on_error : bool;
}.

Definition init : t :=
  {| _events := []; _playing := false; _stop_flag := false;
     _loop_count := 1; on_complete := false; on_error := false |}.

Definition set_events (p : t) (events : list Event.t) : t :=
  mk events (_playing p) (_stop_flag p) (_loop_count p)
     (on_complete p) (on_error p).

Definition set_loop (p : t) (count : Z) : t :=
  mk (_events p) (_playing p) (_stop_flag p) (Z.max 0 count)
     (on_complete p) (on_error p).

Definition set_playing (p : t) (b : bool) : t :=
  mk (_events p) b (_stop_flag p) (_loop_count p)
     (on_complete p) (on_error p).

Definition set_stop_flag (p : t) (b : bool) : t :=
  mk (_events p) (_playing p) b (_loop_count p)
     (on_complete p) (on_error p).

(** [start]: the new state, and whether the replay thread was launched. *)
Definition start (p : t) : t * bool :=
  if _playing p || match _events p with [] => true | _ => false end
  then (p, false)
  else (set_stop_flag (set_playing p true) false, true).

(** The first locked block of [stop]: raise the flag when playing. *)
Definition stop_request (p : t) : t :=
  if negb (_playing p) then p else set_stop_flag p true.

(** The last locked block of [stop], reached when the player was playing,
    whether or not the thread ended within the timeout of the join. *)
Definition stop_finish (p : t) : t := set_playing p false.

Definition is_playing (p : t) : bool := _playing p.

(** [stop] as the controlling path runs it: nothing when the player is
    idle; otherwise the flag is raised, the thread is joined for at most
    one second, and the player is marked idle. *)
Definition stop (p : t) : t :=
  if negb (_playing p) then p else stop_finish (stop_request p).

(** *** The handlers of [_play_event]: the controller calls each one
    issues, in order *)

Definition mouse_button (v : pyval) : MouseButton :=
  if Py.eq_str v "left" then Button_left
  else if Py.eq_str v "right" then Button_right
  else Button_middle.

Definition _play_mouse_move (e : Event.t) : list os_action :=
  if negb (Py.is_none (Event.x e)) && negb (Py.is_none (Event.y e))
  then [SetPosition (Event.x e) (Event.y e)]
  else [].

Definition _play_mouse_click (e : Event.t) : list os_action :=
  if Py.truthy (Event.button e)
     && negb (Py.is_none (Event.pressed e))
     && negb (Py.is_none (Event.x e))
     && negb (Py.is_none (Event.y e))
  then
    let btn := mouse_button (Event.button e) in
    if Py.truthy (Event.pressed e) then [MousePress btn]
    else [MouseRelease btn]
  else [].

Definition _play_mouse_scroll (e : Event.t) : list os_action :=
  if negb (Py.is_none (Event.x e)) && negb (Py.is_none (Event.y e))
  then
    (if Py.truthy (Event.scroll_dy e)
     then [MouseScroll (PInt 0) (Event.scroll_dy e)] else [])
    ++ (if Py.truthy (Event.scroll_dx e)
        then [MouseScroll (Event.scroll_dx e) (PInt 0)] else [])
  else [].

Definition _play_key_press (e : Event.t) : result (list os_action) :=
  if negb (Py.is_none (Event.key e))
  then
    let* key := _to_key (Event.key e) in
    match key with
    | Some k => Ok [KbPress k]
    | None => Ok []
    end
  else Ok [].

Definition _play_key_release (e : Event.t) : result (list os_action) :=
  if negb (Py.is_none (Event.key e))
  then
    let* key := _to_key (Event.key e) in
    match key with
    | Some k => Ok [KbRelease k]
    | None => Ok []
    end
  else Ok [].

(** The [if/elif] chain of [_play_event]. *)
Definition dispatch (e : Event.t) : result (list os_action) :=
  match Event.type e with
  | MOUSE_MOVE => Ok (_play_mouse_move e)
  | MOUSE_CLICK => Ok (_play_mouse_click e)
  | MOUSE_SCROLL => Ok (_play_mouse_scroll e)
  | KEY_PRESS => _play_key_press e
  | KEY_RELEASE => _play_key_release e
  end.

(** *** The replay thread

    The thread shares the [Player] object with the controlling path. The
    environment of a run fixes what the thread cannot decide:
    - [cancel = Some k]: the controlling path runs the first block of
      [stop] just before the [k]-th access (counting from 0) of the
      thread to [_stop_flag] or [_playing]; [None]: [stop] is not called
      during the run;
    - [clock n]: the value of the [n]-th call of [time.perf_counter];
    - [os_raises n]: whether the [n]-th controller call raises;
    - [sleep_raises d]: the exception [time.sleep(d)] raises, [None] when
      the call returns. The interpreter refuses a wait beyond the range of
      its timer with [OverflowError].

    Nothing in [_play_once] or [_run] catches an exception of
    [time.sleep]: it ends the thread where it is raised. The world of the
    thread keeps it in [uncaught]. *)
Record env : Type := mkEnv {
  cancel : option nat;
  clock : nat -> float;
  os_raises : nat -> bool;
  sleep_raises : float -> option exn;
}.

Record world : Type := mkWorld {
  player : t;
  accesses : nat;
  clock_reads : nat;
  os_calls : nat;
  trace : list obs;
  uncaught : option exn;
}.

Definition init_world (p : t) : world := mkWorld p 0 0 0 [] None.

Definition emit (o : obs) (w : world) : world :=
  mkWorld (player w) (accesses w) (clock_reads w) (os_calls w)
          (trace w ++ [o]) (uncaught w).

(** An exception that nothing catches: the thread ends with it. *)
Definition die (ex : exn) (w : world) : world :=
  mkWorld (player w) (accesses w) (clock_reads w) (os_calls w)
          (trace w) (Some ex).

Section Thread.

Variable E : env.

(** Whether [stop] is called just before the access number [n]. *)
Definition stop_arrives (n : nat) : bool :=
  match cancel E with
  | Some k => Nat.eqb k n
  | None => false
  end.

(** The shared object as the thread finds it at its next access. *)
Definition shared (w : world) : t :=
  if stop_arrives (accesses w) then stop_request (player w)
  else player w.

(** A read of [self._stop_flag] by the thread. *)
Definition read_stop_flag (w : world) : bool * world :=
  let p := shared w in
  let b := _stop_flag p in
  (b, mkWorld p (S (accesses w)) (clock_reads w) (os_calls w)
              (trace w ++ [CheckStop b]) (uncaught w)).

(** [with self._lock: self._playing = False] in the thread. *)
Definition write_idle (w : world) : world :=
  mkWorld (set_playing (shared w) false) (S (accesses w))
          (clock_reads w) (os_calls w) (trace w) (uncaught w).

Definition perf_counter (w : world) : float * world :=
  (clock E (clock_reads w),
   mkWorld (player w) (accesses w) (S (clock_reads w)) (os_calls w)
           (trace w) (uncaught w)).

(** The [except Exception] handler of [_play_event]. *)
Definition report_error (w : world) : world :=
  let w := emit LogError w in
  if on_error (player w) then emit OnError w else w.

(** The controller calls of one handler; the first that raises ends the
    handler and enters the [except] clause. *)
Fixpoint issue (calls : list os_action) (w : world) : world :=
  match calls with
  | [] => w
  | a :: rest =>
      let raised := os_raises E (os_calls w) in
      let w := mkWorld (player w) (accesses w) (clock_reads w)
                       (S (os_calls w)) (trace w ++ [OsCall a])
                       (uncaught w) in
      if raised then report_error w else issue rest w
  end.

Definition _play_event (e : Event.t) (w : world) : world :=
  let w := emit (Dispatch e) w in
  match dispatch e with
  | Ok calls => issue calls w
  | Raise _ => report_error w
  end.

(** [if wait > 0: time.sleep(wait)]: the exception that leaves the
    statement, if any. *)
Definition sleep_error (wait : float) : option exn :=
  if (0 <? wait)%float then sleep_raises E wait else None.

(** The [for] loop of [_play_once]. An exception of [time.sleep] leaves the
    loop, and the event it was waiting for is not injected. *)
Fixpoint play_events (start : float) (events : list Event.t) (w : world)
  : world :=
  match events with
  | [] => w
  | event :: rest =>
      let (stopped, w) := read_stop_flag w in
      if stopped then w
      else
        let (now, w) := perf_counter w in
        let wait := (start + Event.timestamp event - now)%float in
        match sleep_error wait with
        | Some ex => die ex (emit (SleepRaised wait ex) w)
        | None =>
            let w := if (0 <? wait)%float then emit (Slept wait) w else w in
            play_events start rest (_play_event event w)
        end
  end.

Definition _play_once (w : world) : world :=
  match _events (player w) with
  | [] => w
  | events =>
      let (start, w) := perf_counter w in
      play_events start events w
  end.

(** The [while] loop of [_run], for at most [fuel] iterations. The
    result holds whether the loop was left, the value of [loop], and
    the world. An exception that leaves [_play_once] leaves the loop. *)
Fixpoint run_loop (fuel : nat) (loop : Z) (w : world)
  : bool * Z * world :=
  match fuel with
  | O => (false, loop, w)
  | S fuel' =>
      let (stopped, w) := read_stop_flag w in
      if stopped then (true, loop, w)
      else
        let loop := (loop + 1)%Z in
        let w := _play_once w in
        match uncaught w with
        | Some _ => (true, loop, w)
        | None =>
            if (0 <? _loop_count (player w))%Z
               && (_loop_count (player w) <=? loop)%Z
            then (true, loop, w)
            else run_loop fuel' loop w
        end
  end.

(** What follows the loop in [_run]. *)
Definition run_exit (w : world) : world :=
  let w := write_idle w in
  if on_complete (player w)
  then
    let (stopped, w) := read_stop_flag w in
    if negb stopped then emit OnComplete w else w
  else w.

(** [_run]: the world when the thread has ended, [None] when the loop is
    still running after [fuel] iterations. The thread ends when [_run]
    returns, or with the exception that left the loop: what follows the
    loop is then not executed, and [_playing] stays [True]. *)
Definition _run (fuel : nat) (w : world) : option world :=
  match run_loop fuel 0 w with
  | (true, _, w) =>
      match uncaught w with
      | Some _ => Some w
      | None => Some (run_exit w)
      end
  | (false, _, _) => None
  end.

End Thread.

(** The events handed to [_play_event], in order. *)
Definition dispatched (tr : list obs) : list Event.t :=
  omap (fun o => match o with Dispatch e => Some e | _ => None end) tr.

(** How many times [on_complete] was called. *)
Definition completions (tr : list obs) : nat :=
  length (List.filter
            (fun o => match o with OnComplete => true | _ => false end) tr).

End Player.

(** ** Loading a file *)

Module App.

(** The part of [_open] that follows [json.load]: the assignment
    [self.macro = Macro.from_dict(data)] sits in a [try] whose handlers
    only show a message. The result is the macro of the application
    afterwards and the exception that was handled, if any. *)
Definition _open (macro : Macro.t) (data : pyval) : Macro.t * option exn :=
  match Macro.from_dict data with
  | Ok m => (m, None)
  | Raise ex => (macro, Some ex)
  end.

(** The loop count [_start_play] passes to [set_loop]. [parsed] is the
    value of [int(self.loop_var.get())], [None] when the conversion raises
    [ValueError] or [TypeError]. *)
Definition loop_of_entry (parsed : option Z) : Z :=
  match parsed with
  | Some loop =>
      if (loop <? 0)%Z then 0%Z
      else if (1000 <? loop)%Z then 1000%Z
      else loop
  | None => 1%Z
  end.

(** The calls of [_start_play] on the player: the new state of the player
    and whether a replay thread was launched. *)
Definition _start_play (macro : Macro.t) (player : Player.t)
           (parsed : option Z) : Player.t * bool :=
  Player.start
    (Player.set_loop (Player.set_events player (Macro.events macro))
                     (loop_of_entry parsed)).

End App.

(** * Vocabulary of the properties

    The predicates, the invariants and the concrete inputs that the
    statements below are written with. *)

(** The first index at which an element of [l] fails to load. *)
Definition first_bad (l : list pyval) (i : nat) (ex : exn) : Prop :=
  (exists v, l !! i = Some v /\ Event.from_dict v = Raise ex)
  /\ forall j v, j < i -> l !! j = Some v -> is_ok (Event.from_dict v) = true.



(** The reading [a] falls less than [INTERVAL] after the marker of [r]. *)
Definition throttled (r : Recorder.t) (a : float) : bool :=
  (Recorder._ts r a - Recorder._last_move r <? Recorder.INTERVAL)%float.



(** The observations of the handlers: controller calls and error reports. *)
Definition injection_obs (o : obs) : Prop :=
  match o with
  | OsCall _ | LogError | OnError => True
  | _ => False
  end.

(** [w'] is [w] with the observations [extra] added and more clock
    readings or controller calls made: the shared object is untouched, and
    no exception has ended the thread in between. *)
Definition extends (w w' : Player.world) (extra : list obs) : Prop :=
  Player.player w' = Player.player w
  /\ Player.accesses w' = Player.accesses w
  /\ Player.trace w' = (Player.trace w ++ extra)%list
  /\ Player.uncaught w' = Player.uncaught w.

(** Whether [stop] was called before the access number [n]. *)
Definition requested (E : Player.env) (n : nat) : bool :=
  match Player.cancel E with
  | Some k => (k <? n)%nat
  | None => false
  end.

(** What holds of the world of a run started on [p0] as long as the thread
    is in its loop: the thread has not touched the timeline, the loop count
    or the callbacks; the player is marked playing; the flag is raised
    exactly when [stop] was called; [on_complete] was not called; no
    exception has ended the thread. *)
Record running (E : Player.env) (p0 : Player.t) (w : Player.world) : Prop :=
  mkRunning {
    run_events : Player._events (Player.player w) = Player._events p0;
    run_loop_count :
      Player._loop_count (Player.player w) = Player._loop_count p0;
    run_on_complete :
      Player.on_complete (Player.player w) = Player.on_complete p0;
    run_playing : Player._playing (Player.player w) = true;
    run_flag :
      Player._stop_flag (Player.player w) = requested E (Player.accesses w);
    run_completions : Player.completions (Player.trace w) = 0;
    run_alive : Player.uncaught w = None;
  }.

(** What holds of the world of a run started on [p0] that an exception of
    [time.sleep] has ended: as in [running], but for the exception. *)
Record ended_by_exception (E : Player.env) (p0 : Player.t)
       (w : Player.world) : Prop :=
  mkEnded {
    end_events : Player._events (Player.player w) = Player._events p0;
    end_playing : Player._playing (Player.player w) = true;
    end_completions : Player.completions (Player.trace w) = 0;
    end_uncaught : Player.uncaught w <> None;
  }.

(** [time.sleep(d)], executed when [d > 0]. *)
Definition sleep_for (d : float) : list obs :=
  if (0 <? d)%float then [Slept d] else [].

(** Whether [stop] was called between the access number [a0] of the
    thread and its access number [a], the latter excluded. *)
Definition arrived (E : Player.env) (a0 a : nat) : bool :=
  match Player.cancel E with
  | Some k => (a0 <=? k)%nat && (k <? a)%nat
  | None => false
  end.

(** What the thread reads in [_stop_flag] at its access number [a], in a
    pass that began at its access number [a0] with the player [p]: the flag
    is raised when it was raised already, or when [stop] was called on the
    playing player between the two accesses, the second included. *)
Definition flag_seen (E : Player.env) (p : Player.t) (a0 a : nat) : bool :=
  Player._stop_flag p
  || (Player._playing p && arrived E a0 (S a)).

(** The observations of one pass over [events], for a pass that began
    with the player [p] at the access number [a0] of the thread and at the
    clock reading [start]; [a] and [n] count the accesses to the shared
    state and the readings of the clock made before the first event of
    [events]. For each event in turn the flag is read once; when it is
    raised the pass ends; otherwise the clock is read once more, and the
    thread sleeps once, for all the time left at that reading until the
    event is due; when the sleep returns the event is injected, and when
    it raises the pass ends there. *)
Inductive pass_trace (E : Player.env) (p : Player.t) (a0 : nat)
          (start : float)
  : nat -> nat -> list Event.t -> list obs -> Prop :=
  | pass_end (a n : nat) : pass_trace E p a0 start a n [] []
  | pass_stopped (a n : nat) (e : Event.t) (rest : list Event.t) :
      flag_seen E p a0 a = true ->
      pass_trace E p a0 start a n (e :: rest) [CheckStop true]
  | pass_raised (a n : nat) (e : Event.t) (rest : list Event.t)
                (ex : exn) :
      flag_seen E p a0 a = false ->
      Player.sleep_error E (start + Event.timestamp e - Player.clock E n)
      = Some ex ->
      pass_trace E p a0 start a n (e :: rest)
        [CheckStop false;
         SleepRaised (start + Event.timestamp e - Player.clock E n) ex]
  | pass_event (a n : nat) (e : Event.t) (rest : list Event.t)
               (tail tr : list obs) :
      flag_seen E p a0 a = false ->
      Player.sleep_error E (start + Event.timestamp e - Player.clock E n)
      = None ->
      Forall injection_obs tail ->
      pass_trace E p a0 start (S a) (S n) rest tr ->
      pass_trace E p a0 start a n (e :: rest)
        (CheckStop false
           :: sleep_for (start + Event.timestamp e - Player.clock E n)
           ++ Dispatch e :: tail ++ tr).

(** Every wait a run over [events] may compute is one that [time.sleep]
    accepts: the time left until an event of the timeline is due, from
    any reading of the clock, for a pass begun at any reading. *)
Definition waits_accepted (E : Player.env) (events : list Event.t) : Prop :=
  forall (i j : nat) (e : Event.t),
    e ∈ events ->
    Player.sleep_error E
      (Player.clock E i + Event.timestamp e - Player.clock E j)%float = None.

(** What [time.sleep] refuses in CPython on every platform: the wait is
    converted to a signed 64-bit number of nanoseconds, and a wait of more
    than 2^63 ns (about 292 years) raises [OverflowError]. *)
Definition sleep_limit (d : float) : option exn :=
  if (d * 1000000000 <=? 9223372036854775808)%float then None
  else Some OverflowError.

(** A one-event timeline, and an environment with a clock that stands
    still, controllers that never raise and the timer of CPython. *)
Definition one_move : list Event.t := [Recorder.move_event 0 10 10].

Definition still_env (cancel : option nat) : Player.env :=
  Player.mkEnv cancel (fun _ => 0%float) (fun _ => false) sleep_limit.

(** A player with [on_complete] registered, holding [events]. *)
Definition ready_player (events : list Event.t) : Player.t :=
  Player.mk events false false 1 true false.

(** No single sleep of the trace lasts more than [limit] seconds. *)
Definition sleeps_within (limit : float) (tr : list obs) : bool :=
  forallb (fun o => match o with
                    | Slept d => (d <=? limit)%float
                    | _ => true
                    end) tr.

(** A timeline with a gap of one hour between its two events. *)
Definition sparse_timeline : list Event.t :=
  [Recorder.move_event 0 10 10; Recorder.move_event 3600 20 20].

Definition sparse_player : Player.t :=
  fst (Player.start (Player.set_loop (ready_player sparse_timeline) 1)).

(** The player after [set_loop(3)] and [start()] on the one-event
    timeline. *)
Definition looping_player : Player.t :=
  fst (Player.start (Player.set_loop (ready_player one_move) 3)).

(** A timeline whose only event is due 10^10 s after the start of the
    pass, and the player after [set_loop(3)] and [start()] on it. *)
Definition far_timeline : list Event.t :=
  [Recorder.move_event 10000000000 10 10].


(** The same player after [set_loop(1)]. *)
Definition far_once : Player.t :=
  fst (Player.start (Player.set_loop (ready_player far_timeline) 1)).

(** A recorder started when the clock reads 100 s. *)
Definition fresh_recorder : Recorder.t := Recorder.start Recorder.init 100.

(** The nine field names of an event record. *)
Definition known_fields : list string :=
  "type" :: "timestamp" :: Event.optional_fields.

Definition is_int (v : pyval) : bool :=
  match v with PInt _ => true | _ => false end.

(** [v] is the boolean [b]. *)
Definition is_bool (b : bool) (v : pyval) : bool :=
  match v with PBool b' => Bool.eqb b' b | _ => false end.

(** [v] is a key name the recorder may store: a string that is neither
    empty nor one of the excluded hotkeys. *)
Definition is_key_name (v : pyval) : bool :=
  match v with
  | PStr n =>
      negb (String.eqb n "")
      && negb (existsb (String.eqb n) Recorder.EXCLUDED_HOTKEYS)
  | _ => false
  end.

(** The fields of an event as the recorder fills them, kind by kind:
    integer coordinates for the mouse events, one of the three button
    names and a boolean for a click, integer steps for a scroll, a key
    name and the matching boolean for the key events, and [None] in every
    other field. *)
Definition well_formed (e : Event.t) : bool :=
  match Event.type e with
  | MOUSE_MOVE =>
      is_int (Event.x e) && is_int (Event.y e)
      && forallb Py.is_none
           [Event.button e; Event.key e; Event.pressed e;
            Event.scroll_dx e; Event.scroll_dy e]
  | MOUSE_CLICK =>
      is_int (Event.x e) && is_int (Event.y e)
      && existsb (Py.eq_str (Event.button e)) ["left"; "right"; "middle"]
      && (is_bool true (Event.pressed e) || is_bool false (Event.pressed e))
      && forallb Py.is_none
           [Event.key e; Event.scroll_dx e; Event.scroll_dy e]
  | MOUSE_SCROLL =>
      is_int (Event.x e) && is_int (Event.y e)
      && is_int (Event.scroll_dx e) && is_int (Event.scroll_dy e)
      && forallb Py.is_none [Event.button e; Event.key e; Event.pressed e]
  | KEY_PRESS =>
      is_key_name (Event.key e) && is_bool true (Event.pressed e)
      && forallb Py.is_none
           [Event.x e; Event.y e; Event.button e;
            Event.scroll_dx e; Event.scroll_dy e]
  | KEY_RELEASE =>
      is_key_name (Event.key e) && is_bool false (Event.pressed e)
      && forallb Py.is_none
           [Event.x e; Event.y e; Event.button e;
            Event.scroll_dx e; Event.scroll_dy e]
  end.

(** The stamps the recorder [r] gives to the calls of a stream. *)
Definition stamps (r : Recorder.t) (calls : list (float * Recorder.notification))
  : list float :=
  map (fun c => Recorder._ts r (fst c)) calls.

(** Each MouseMove event of [l] is stamped not less than [INTERVAL] after
    the MouseMove event before it, the first one after [prev]. *)
Fixpoint spaced_moves (prev : float) (l : list Event.t) : bool :=
  match l with
  | [] => true
  | e :: l' =>
      match Event.type e with
      | MOUSE_MOVE =>
          negb (Event.timestamp e - prev <? Recorder.INTERVAL)%float
          && spaced_moves (Event.timestamp e) l'
      | _ => spaced_moves prev l'
      end
  end.

(** A short session: a move too early to be recorded, a click, a move,
    a key of the exclusion list, a character key, a second move. *)
Definition sample_session : list (float * Recorder.notification) :=
  [ (100.001%float, Recorder.Move 1 1);
    (100.050%float, Recorder.Click 1 1 Button_left true);
    (100.060%float, Recorder.Move 2 2);
    (100.062%float, Recorder.Press (NKey Key.f9));
    (100.070%float, Recorder.Press (NKeyCode (Some "a")));
    (100.071%float, Recorder.Move 3 3) ].

(** The button a click is replayed on: the button recorded, the middle
    one for a button that is neither left, right nor middle. *)
Definition replayed_button (b : MouseButton) : MouseButton :=
  match b with
  | Button_left => Button_left
  | Button_right => Button_right
  | _ => Button_middle
  end.

(** Among [n] controller calls numbered from [from], the position of the
    first that raises. *)
Fixpoint first_raise (E : Player.env) (from n : nat) : option nat :=
  match n with
  | O => None
  | S n' =>
      if Player.os_raises E from then Some 0
      else S <$> first_raise E (S from) n'
  end.

(** What the [except] clause of [_play_event] adds to the trace. *)
Definition error_report (p : Player.t) : list obs :=
  LogError :: (if Player.on_error p then [OnError] else []).

(** The run of [looping_player] stopped just before the fifth access of
    the thread to the shared state. *)
Definition stopped_run : Player.world :=
  match Player._run (still_env (Some 4)) 10 (Player.init_world looping_player)
  with
  | Some w => w
  | None => Player.init_world looping_player
  end.

(** The run of [far_once] without a call of [stop]. *)
Definition refused_run : Player.world :=
  match Player._run (still_env None) 1 (Player.init_world far_once) with
  | Some w => w
  | None => Player.init_world far_once
  end.

(** How many events of [l] have the type [t]. *)
Definition count_type (t : EventType) (l : list Event.t) : nat :=
  length (List.filter
            (fun e => String.eqb (EventTypeM.value (Event.type e))
                                 (EventTypeM.value t)) l).

Definition is_click (c : float * Recorder.notification) : bool :=
  match snd c with Recorder.Click _ _ _ _ => true | _ => false end.

Definition is_scroll (c : float * Recorder.notification) : bool :=
  match snd c with Recorder.Scroll _ _ _ _ => true | _ => false end.

(** A record of a macro with one event and no name. *)
Definition sample_record : gmap string pyval :=
  <["events" :=
      PList [PDict (<["timestamp" := PInt 2]>
                      (<["type" := PStr "key_press"]> ∅))]]> ∅.

(** * Properties *)

(** ** The codec *)

Lemma lookup_set_field (e : Event.t) (d : gmap string pyval) (k k' : string) :
  Event.set_field e d k !! k' =
    if String.eqb k k'
    then (if Py.is_none (Event.getattr e k) then d !! k'
          else Some (Event.getattr e k))
    else d !! k'.
Proof.
  unfold Event.set_field.
  destruct (String.eqb_spec k k') as [->|Hne].
  - destruct (Py.is_none _); [reflexivity|]. apply lookup_insert_eq.
  - destruct (Py.is_none _); [reflexivity|]. by apply lookup_insert_ne.
Qed.

Lemma get_present_or_none (v : pyval) :
  default PNone (if Py.is_none v then None else Some v) = v.
Proof. by destruct v. Qed.

Lemma to_dict_type (e : Event.t) :
  Event.to_dict e !! "type" = Some (PStr (EventTypeM.value (Event.type e))).
Proof.
  unfold Event.to_dict, Event.optional_fields; simpl.
  rewrite !lookup_set_field; simpl.
  rewrite lookup_insert_ne by discriminate. apply lookup_insert_eq.
Qed.

Lemma to_dict_timestamp (e : Event.t) :
  Event.to_dict e !! "timestamp" = Some (PFloat (Event.timestamp e)).
Proof.
  unfold Event.to_dict, Event.optional_fields; simpl.
  rewrite !lookup_set_field; simpl. apply lookup_insert_eq.
Qed.

Lemma to_dict_optional (e : Event.t) (k : string) :
  k ∈ Event.optional_fields ->
  Py.get (Event.to_dict e) k PNone = Event.getattr e k.
Proof.
  intros Hk. unfold Py.get, Event.to_dict.
  unfold Event.optional_fields in *.
  repeat (apply elem_of_cons in Hk as [-> | Hk]);
    [ .. | by apply elem_of_nil in Hk ];
    simpl; rewrite !lookup_set_field; simpl;
    rewrite ?lookup_insert_ne, ?lookup_empty by discriminate;
    simpl; try apply get_present_or_none.
Qed.

Lemma of_value_value (t : EventType) :
  EventTypeM.of_value (PStr (EventTypeM.value t)) = Some t.
Proof. by destruct t. Qed.

Lemma Event_roundtrip (e : Event.t) :
  Event.from_dict (PDict (Event.to_dict e)) = Ok e.
Proof.
  unfold Event.from_dict; simpl.
  rewrite to_dict_type, to_dict_timestamp; simpl.
  rewrite of_value_value.
  rewrite !to_dict_optional by (unfold Event.optional_fields; set_solver).
  by destruct e.
Qed.

Lemma load_events_roundtrip (i : nat) (evs : list Event.t) :
  Macro.load_events i (map (fun e => PDict (Event.to_dict e)) evs) = Ok evs.
Proof.
  revert i. induction evs as [|e evs IH]; intros i; simpl; [reflexivity|].
  rewrite Event_roundtrip, IH. reflexivity.
Qed.

(** C1. Serialization round-trip: loading the dict that [Macro.to_dict]
    builds yields the macro it was built from: the same name and creation
    time, and the same events in the same order, each with its type, its
    timestamp and every optional field it had (an absent field stays
    absent). This holds for every macro, whatever objects its fields hold. *)
Theorem Macro_roundtrip (m : Macro.t) :
  Macro.from_dict (Macro.to_dict m) = Ok m.
Proof.
  unfold Macro.from_dict, Macro.to_dict, Py.get.
  rewrite lookup_insert_eq, load_events_roundtrip. simpl.
  rewrite lookup_insert_ne, lookup_insert_ne, lookup_insert_eq by discriminate.
  rewrite lookup_insert_ne, lookup_insert_eq by discriminate.
  by destruct m.
Qed.

(** What [Event.from_dict] does on a record (a dict), case by case. *)
Lemma Event_from_dict_cases (m : gmap string pyval) :
  match m !! "type", m !! "timestamp" with
  | None, _ | _, None =>
      Event.from_dict (PDict m) = Raise (ValueError RequiredFieldsMissing)
  | Some ty, Some ts =>
      match EventTypeM.of_value ty with
      | None =>
          Event.from_dict (PDict m) = Raise (ValueError (InvalidEventType ty))
      | Some event_type =>
          if Py.is_int_or_float ts
          then
            match Py.to_float ts with
            | Ok f =>
                Event.from_dict (PDict m) =
                  Ok (Event.mk event_type f
                        (Py.get m "x" PNone) (Py.get m "y" PNone)
                        (Py.get m "button" PNone) (Py.get m "key" PNone)
                        (Py.get m "pressed" PNone)
                        (Py.get m "scroll_dx" PNone)
                        (Py.get m "scroll_dy" PNone))
            | Raise ex =>
                ex = OverflowError /\ Event.from_dict (PDict m) = Raise ex
            end
          else
            Event.from_dict (PDict m) =
              Raise (ValueError (TimestampNotNumber ts))
      end
  end.
Proof.
  unfold Event.from_dict; simpl.
  destruct (m !! "type") as [ty|] eqn:Hty; simpl; [|reflexivity].
  destruct (m !! "timestamp") as [ts|] eqn:Hts; simpl; [|reflexivity].
  destruct (EventTypeM.of_value ty) as [event_type|]; [|reflexivity].
  destruct (Py.is_int_or_float ts) eqn:Hnum; simpl; [|reflexivity].
  destruct (Py.to_float ts) as [f|ex] eqn:Hf; simpl; [reflexivity|].
  split; [|reflexivity].
  destruct ts as [|b|z|f|s|l|m']; simpl in Hnum, Hf; try discriminate.
  unfold Py.float_of_int in Hf.
  destruct (binary_normalize prec emax z 0 false); congruence.
Qed.

(** C7, at the record [{"type": "mouse_move", "timestamp": True}]: the
    timestamp is a boolean, not a number, and yet the record loads, as an
    event stamped [1.0]; [isinstance(True, (int, float))] holds because
    [bool] is a subclass of [int]. An integer timestamp too large for a
    float leaves [Event.from_dict] with [OverflowError], which is not the
    [ValueError] of the other malformed records. *)
Theorem Event_from_dict_accepts_bool_timestamp :
  Event.from_dict
    (PDict (<["timestamp" := PBool true]>
              (<["type" := PStr "mouse_move"]> ∅)))
  = Ok (Recorder.blank MOUSE_MOVE 1%float)
  /\ Event.from_dict
       (PDict (<["timestamp" := PInt (10 ^ 400)]>
                 (<["type" := PStr "mouse_move"]> ∅)))
     = Raise OverflowError.
Proof. split; vm_compute; reflexivity. Qed.

Lemma load_events_ok (i : nat) (l : list pyval) (evs : list Event.t) :
  Macro.load_events i l = Ok evs ->
  forall j v, l !! j = Some v -> is_ok (Event.from_dict v) = true.
Proof.
  revert i evs. induction l as [|e l IH]; intros i evs H j v Hj.
  - by rewrite lookup_nil in Hj.
  - simpl in H. destruct (Event.from_dict e) as [ev|ex] eqn:He; [|discriminate].
    destruct (Macro.load_events (S i) l) as [evs'|] eqn:Hl; [|discriminate].
    destruct j as [|j]; simpl in Hj.
    + injection Hj as <-. by rewrite He.
    + eapply IH; eauto.
Qed.

Lemma load_events_raise (i : nat) (l : list pyval) (ex : exn) :
  Macro.load_events i l = Raise ex ->
  exists j ex', ex = ValueError (FailedToLoadEvent (i + j) ex')
                /\ first_bad l j ex'.
Proof.
  revert i. induction l as [|e l IH]; intros i H; simpl in H; [discriminate|].
  destruct (Event.from_dict e) as [ev|ex0] eqn:He.
  - destruct (Macro.load_events (S i) l) as [evs'|ex1] eqn:Hl; [discriminate|].
    simpl in H. injection H as <-.
    destruct (IH _ Hl) as (j & ex' & -> & (v & Hv & Hex) & Hfirst).
    exists (S j), ex'. split; [f_equal; f_equal; lia|].
    split; [exists v; auto|].
    intros [|j'] v' Hlt Hj'; simpl in Hj'.
    + injection Hj' as <-. by rewrite He.
    + eapply Hfirst; [|eassumption]. lia.
  - injection H as <-. exists 0, ex0. split; [f_equal; f_equal; lia|].
    split; [exists e; auto|]. intros j v Hlt. lia.
Qed.

(** C8. Loading a macro from a record (a dict) fails exactly when [events]
    is absent, or is not a list, or some element of it fails
    [Event.from_dict]. Every failure is a [ValueError]; when an element is
    at fault the message cites the index of the first element that fails,
    with the error of that element. On failure nothing is produced: the
    macro of the application stays the one it had. *)
Theorem Macro_from_dict_errors (m : gmap string pyval) :
  (is_ok (Macro.from_dict (PDict m)) = false <->
     m !! "events" = None
     \/ (exists v, m !! "events" = Some v /\ forall l, v <> PList l)
     \/ (exists l i v, m !! "events" = Some (PList l) /\ l !! i = Some v
                       /\ is_ok (Event.from_dict v) = false))
  /\ (forall ex, Macro.from_dict (PDict m) = Raise ex ->
        (m !! "events" = None /\ ex = ValueError EventsMissing)
        \/ (exists v, m !! "events" = Some v /\ (forall l, v <> PList l)
                      /\ ex = ValueError EventsNotList)
        \/ (exists l i ex', m !! "events" = Some (PList l)
                            /\ first_bad l i ex'
                            /\ ex = ValueError (FailedToLoadEvent i ex')))
  /\ (forall ex macro, Macro.from_dict (PDict m) = Raise ex ->
        App._open macro (PDict m) = (macro, Some ex)).
Proof.
  assert (Hraise : forall ex, Macro.from_dict (PDict m) = Raise ex ->
        (m !! "events" = None /\ ex = ValueError EventsMissing)
        \/ (exists v, m !! "events" = Some v /\ (forall l, v <> PList l)
                      /\ ex = ValueError EventsNotList)
        \/ (exists l i ex', m !! "events" = Some (PList l)
                            /\ first_bad l i ex'
                            /\ ex = ValueError (FailedToLoadEvent i ex'))).
  { intros ex H. unfold Macro.from_dict in H.
    destruct (m !! "events") as [v|] eqn:Hev.
    - destruct v; try (right; left; eexists; split; [reflexivity|];
                       split; [discriminate | congruence]).
      right; right.
      destruct (Macro.load_events 0 l) as [evs|ex1] eqn:Hl;
        [discriminate|]. simpl in H. injection H as <-.
      destruct (load_events_raise _ _ _ Hl) as (j & ex' & -> & Hfb).
      exists l, j, ex'. auto.
    - left. split; congruence. }
  split; [|split; [exact Hraise|]].
  - split.
    + intros H. destruct (Macro.from_dict (PDict m)) as [?|ex] eqn:Hm;
        [discriminate|].
      destruct (Hraise ex eq_refl) as [[? _]|[(v & ? & ? & _)|(l & i & ex' & ? & Hfb & _)]].
      * by left.
      * right; left. eauto.
      * right; right. destruct Hfb as [(v & Hv & Hex) _].
        exists l, i, v. rewrite Hex. auto.
    + unfold Macro.from_dict.
      intros [->|[(v & -> & Hv)|(l & i & v & -> & Hi & Hbad)]].
      * reflexivity.
      * destruct v; try reflexivity. by destruct (Hv l).
      * destruct (Macro.load_events 0 l) as [evs|] eqn:Hl; [|reflexivity].
        rewrite (load_events_ok _ _ _ Hl _ _ Hi) in Hbad. discriminate.
  - intros ex macro H. unfold App._open. by rewrite H.
Qed.

(** ** Key names *)

(** The hotkeys F9 and F10 are not recorded. *)
Lemma f9_f10_not_recorded (r : Recorder.t) (now : float) (k : Key.t) :
  k = Key.f9 \/ k = Key.f10 ->
  Recorder._on_press r now (NKey k) = r
  /\ Recorder._on_release r now (NKey k) = r.
Proof.
  intros [-> | ->]; unfold Recorder._on_press, Recorder._on_release;
    destruct (Recorder._recording r); auto.
Qed.

(** C2, at a press and a release of the Escape key while recording: the
    listener delivers [Key.esc], whose name is "esc"; the exclusion list
    holds "escape", so the test [name not in EXCLUDED_HOTKEYS] passes and
    both events are appended to the buffer. *)
Theorem escape_key_is_recorded (now0 now1 now2 : float) :
  let r := Recorder.start Recorder.init now0 in
  Recorder._recording r = true
  /\ Recorder._events (Recorder._on_press r now1 (NKey Key.esc))
     = [Recorder.key_event KEY_PRESS (now1 - now0) "esc" true]
  /\ Recorder._events
       (Recorder._on_release (Recorder._on_press r now1 (NKey Key.esc))
                             now2 (NKey Key.esc))
     = [Recorder.key_event KEY_PRESS (now1 - now0) "esc" true;
        Recorder.key_event KEY_RELEASE (now2 - now0) "esc" false].
Proof. repeat split. Qed.

Lemma lower_length (s : string) :
  String.length (Str.lower s) = String.length s.
Proof. induction s; simpl; congruence. Qed.

(** An ASCII name of two characters or more that is not in the table is
    not a key. *)
Lemma to_key_unknown_name (s : string) :
  Str.is_ascii s = true ->
  Player.special !! Str.lower s = None ->
  String.length s <> 1 ->
  Player._to_key (PStr s) = Ok None.
Proof.
  intros _ Hs Hlen. unfold Player._to_key. rewrite Hs, lower_length.
  destruct (Nat.eqb_spec (String.length s) 1); [contradiction|reflexivity].
Qed.

Lemma to_key_banana : Player._to_key (PStr "banana_key") = Ok None.
Proof.
  apply to_key_unknown_name; [reflexivity | reflexivity | discriminate].
Qed.

(** The names of the table are ASCII names in lower case, and none is
    empty. *)
Lemma special_lower (name : string) (k : Key.t) :
  Player.special !! name = Some k ->
  Str.lower name = name /\ name <> "" /\ Str.is_ascii name = true.
Proof.
  intros Hk. unfold Player.special in Hk.
  apply elem_of_list_to_map_2 in Hk.
  repeat (apply elem_of_cons in Hk as [Hk | Hk];
          [injection Hk as -> ->; by repeat split|]).
  by apply elem_of_nil in Hk.
Qed.

(** C3, at the entry "escape" of the table: it maps to [Key.esc], which the
    recorder names "esc", not "escape"; and "esc", the name stored in the
    recorded events, is not a name [_to_key] knows, so these events are
    skipped on replay. *)
Theorem escape_name_not_symmetric :
  Player._to_key (PStr "escape") = Ok (Some (TKey Key.esc))
  /\ Recorder._key_name (NKey Key.esc) = Some "esc"
  /\ Player._to_key (PStr "esc") = Ok None
  /\ Player._play_key_press (Recorder.key_event KEY_PRESS 0 "esc" true)
     = Ok [].
Proof. repeat split. Qed.

(** ** Move throttling *)

Lemma on_move_discard (r : Recorder.t) (now : float) (x y : Z) :
  Recorder._recording r = true -> throttled r now = true ->
  Recorder._on_move r now x y = r.
Proof.
  unfold Recorder._on_move, throttled. intros -> H; simpl. by rewrite H.
Qed.

Lemma on_move_append (r : Recorder.t) (now : float) (x y : Z) :
  Recorder._recording r = true -> throttled r now = false ->
  Recorder._on_move r now x y =
    Recorder.mk
      (Recorder._events r
         ++ [Recorder.move_event (Recorder._ts r now) x y])
      (Recorder._start_time r) true (Recorder._ts r now).
Proof.
  unfold Recorder._on_move, throttled. intros Hr H.
  rewrite Hr; simpl. rewrite H. unfold Recorder._add; simpl.
  by rewrite Hr.
Qed.





(** ** The replay thread *)

Lemma completions_app (tr1 tr2 : list obs) :
  Player.completions (tr1 ++ tr2)
  = Player.completions tr1 + Player.completions tr2.
Proof. unfold Player.completions. by rewrite List.filter_app, length_app. Qed.

Lemma dispatched_app (tr1 tr2 : list obs) :
  Player.dispatched (tr1 ++ tr2)
  = (Player.dispatched tr1 ++ Player.dispatched tr2)%list.
Proof. apply omap_app. Qed.

Lemma injection_obs_quiet (tail : list obs) :
  Forall injection_obs tail ->
  Player.completions tail = 0 /\ Player.dispatched tail = [].
Proof.
  induction 1 as [|o tail Ho _ [IH1 IH2]]; [done|].
  destruct o; try contradiction; simpl in *; auto.
Qed.

Lemma extends_refl (w : Player.world) : extends w w [].
Proof. unfold extends. by rewrite app_nil_r. Qed.

Lemma extends_trans (w1 w2 w3 : Player.world) (x1 x2 : list obs) :
  extends w1 w2 x1 -> extends w2 w3 x2 -> extends w1 w3 (x1 ++ x2).
Proof.
  intros (Hp1 & Ha1 & Ht1 & Hu1) (Hp2 & Ha2 & Ht2 & Hu2). unfold extends.
  rewrite Hp2, Hp1, Ha2, Ha1, Ht2, Ht1, Hu2, Hu1, app_assoc. auto.
Qed.

Lemma extends_emit (o : obs) (w : Player.world) :
  extends w (Player.emit o w) [o].
Proof. by unfold extends. Qed.

Section ThreadFacts.

Variable E : Player.env.

Lemma report_error_extends (w : Player.world) :
  exists tail, extends w (Player.report_error w) tail
               /\ Forall injection_obs tail.
Proof.
  unfold Player.report_error. simpl.
  destruct (Player.on_error (Player.player w)).
  - exists [LogError; OnError]. split.
    + eapply (extends_trans _ _ _ [LogError] [OnError]); apply extends_emit.
    + by repeat constructor.
  - exists [LogError]. split; [apply extends_emit | by repeat constructor].
Qed.

Lemma issue_extends (calls : list os_action) (w : Player.world) :
  exists tail, extends w (Player.issue E calls w) tail
               /\ Forall injection_obs tail.
Proof.
  revert w. induction calls as [|a calls IH]; intros w; simpl.
  - exists []. split; [apply extends_refl | constructor].
  - set (w1 := Player.mkWorld _ _ _ _ _ _).
    assert (H1 : extends w w1 [OsCall a]) by by unfold extends.
    destruct (Player.os_raises E (Player.os_calls w)).
    + destruct (report_error_extends w1) as (tail & Hx & Hq).
      exists (OsCall a :: tail). split.
      * eapply (extends_trans _ _ _ [OsCall a] tail); eassumption.
      * by constructor.
    + destruct (IH w1) as (tail & Hx & Hq).
      exists (OsCall a :: tail). split.
      * eapply (extends_trans _ _ _ [OsCall a] tail); eassumption.
      * by constructor.
Qed.

Lemma play_event_extends (e : Event.t) (w : Player.world) :
  exists tail, extends w (Player._play_event E e w) (Dispatch e :: tail)
               /\ Forall injection_obs tail.
Proof.
  unfold Player._play_event.
  pose proof (extends_emit (Dispatch e) w) as H1.
  destruct (Player.dispatch e) as [calls|ex].
  - destruct (issue_extends calls (Player.emit (Dispatch e) w))
      as (tail & Hx & Hq).
    exists tail. split; [|assumption].
    eapply (extends_trans _ _ _ [Dispatch e] tail); eassumption.
  - destruct (report_error_extends (Player.emit (Dispatch e) w))
      as (tail & Hx & Hq).
    exists tail. split; [|assumption].
    eapply (extends_trans _ _ _ [Dispatch e] tail); eassumption.
Qed.

(** The injection of an event does not read the clock. *)
Lemma report_error_clock (w : Player.world) :
  Player.clock_reads (Player.report_error w) = Player.clock_reads w.
Proof.
  unfold Player.report_error. simpl.
  by destruct (Player.on_error (Player.player w)).
Qed.

Lemma issue_clock (calls : list os_action) :
  forall w : Player.world,
    Player.clock_reads (Player.issue E calls w) = Player.clock_reads w.
Proof.
  induction calls as [|a calls IH]; intros w; simpl; [reflexivity|].
  destruct (Player.os_raises E (Player.os_calls w)).
  - by rewrite report_error_clock.
  - by rewrite IH.
Qed.

Lemma play_event_clock (e : Event.t) (w : Player.world) :
  Player.clock_reads (Player._play_event E e w) = Player.clock_reads w.
Proof.
  unfold Player._play_event. destruct (Player.dispatch e).
  - by rewrite issue_clock.
  - by rewrite report_error_clock.
Qed.

End ThreadFacts.

(** *** Invariant of a run *)

Section RunFacts.

Variable E : Player.env.
Variable p0 : Player.t.

Lemma running_init :
  Player._playing p0 = true -> Player._stop_flag p0 = false ->
  running E p0 (Player.init_world p0).
Proof.
  intros Hp Hf. split; simpl; auto.
  unfold requested. destruct (Player.cancel E); [|done].
  rewrite Hf. symmetry. apply Nat.ltb_ge. lia.
Qed.

Lemma running_extends (w w' : Player.world) (extra : list obs) :
  running E p0 w -> extends w w' extra ->
  Player.completions extra = 0 ->
  running E p0 w'.
Proof.
  intros [] (Hp & Ha & Ht & Hu) Hc.
  split; rewrite ?Hp, ?Ha, ?Ht, ?Hu, ?completions_app; auto with lia.
Qed.

(** The shared object at the next access: only the flag may differ. *)
Lemma shared_running (w : Player.world) :
  running E p0 w ->
  Player._events (Player.shared E w) = Player._events p0
  /\ Player._loop_count (Player.shared E w) = Player._loop_count p0
  /\ Player.on_complete (Player.shared E w) = Player.on_complete p0
  /\ Player._playing (Player.shared E w) = true
  /\ Player._stop_flag (Player.shared E w)
     = requested E (S (Player.accesses w)).
Proof.
  intros []. unfold Player.shared, Player.stop_arrives, requested in *.
  destruct (Player.cancel E) as [k|]; [|auto].
  destruct (Nat.eqb_spec k (Player.accesses w)) as [->|Hne].
  - unfold Player.stop_request. rewrite run_playing0; simpl.
    repeat split; auto. symmetry. apply Nat.ltb_lt. lia.
  - repeat split; auto. rewrite run_flag0.
    destruct (Nat.ltb_spec k (Player.accesses w)),
             (Nat.ltb_spec k (S (Player.accesses w)));
      auto; lia.
Qed.

Lemma read_stop_flag_running (w : Player.world) :
  running E p0 w ->
  let (b, w') := Player.read_stop_flag E w in
  running E p0 w'
  /\ Player.accesses w' = S (Player.accesses w)
  /\ Player.trace w' = (Player.trace w ++ [CheckStop b])%list
  /\ b = requested E (S (Player.accesses w)).
Proof.
  intros Hrun. destruct (shared_running w Hrun) as (He & Hl & Hc & Hp & Hf).
  unfold Player.read_stop_flag. simpl.
  split; [|auto].
  split; simpl; auto.
  - rewrite completions_app, (run_completions _ _ _ Hrun).
    reflexivity.
  - apply (run_alive _ _ _ Hrun).
Qed.

Lemma perf_counter_extends (w : Player.world) :
  extends w (snd (Player.perf_counter E w)) [].
Proof. unfold extends; simpl. by rewrite app_nil_r. Qed.

Lemma requested_mono (n n' : nat) :
  n <= n' -> requested E n = true -> requested E n' = true.
Proof.
  unfold requested. destruct (Player.cancel E); [|done].
  intros Hle H%Nat.ltb_lt. apply Nat.ltb_lt. lia.
Qed.

Lemma requested_none (n : nat) :
  Player.cancel E = None -> requested E n = false.
Proof. unfold requested. by intros ->. Qed.

End RunFacts.

(** *** The shape of a pass *)

Section PassFacts.

Variable E : Player.env.

(** One iteration of the loop of [_play_once]. *)
Lemma play_events_cons (start : float) (e : Event.t) (rest : list Event.t)
      (w : Player.world) :
  Player.play_events E start (e :: rest) w =
    let bw := Player.read_stop_flag E w in
    if fst bw then snd bw
    else
      let nw := Player.perf_counter E (snd bw) in
      let wait := (start + Event.timestamp e - fst nw)%float in
      match Player.sleep_error E wait with
      | Some ex => Player.die ex (Player.emit (SleepRaised wait ex) (snd nw))
      | None =>
          let w3 := if (0 <? wait)%float
                    then Player.emit (Slept wait) (snd nw) else snd nw in
          Player.play_events E start rest (Player._play_event E e w3)
      end.
Proof. reflexivity. Qed.

Lemma sleep_extends (d : float) (w : Player.world) :
  extends w (if (0 <? d)%float then Player.emit (Slept d) w else w)
          (sleep_for d).
Proof.
  unfold sleep_for. destruct (0 <? d)%float.
  - apply extends_emit.
  - apply extends_refl.
Qed.

Lemma sleep_for_quiet (d : float) :
  Player.completions (sleep_for d) = 0
  /\ Player.dispatched (sleep_for d) = [].
Proof. unfold sleep_for. by destruct (0 <? d)%float. Qed.

(** What one event adds to the world once the flag was read as lowered
    and the sleep has returned: the sleep, then the injection. *)
Lemma event_step_extends (start : float) (e : Event.t) (w1 : Player.world) :
  let nw := Player.perf_counter E w1 in
  let wait := (start + Event.timestamp e - fst nw)%float in
  let w3 := if (0 <? wait)%float
            then Player.emit (Slept wait) (snd nw) else snd nw in
  exists tail,
    extends w1 (Player._play_event E e w3)
            (sleep_for wait ++ Dispatch e :: tail)
    /\ Forall injection_obs tail
    /\ Player.clock_reads (Player._play_event E e w3)
       = S (Player.clock_reads w1).
Proof.
  intros nw wait w3.
  destruct (play_event_extends E e w3) as (tail & Hx & Hq).
  exists tail. split; [|split; [assumption|]].
  - eapply extends_trans; [|exact Hx].
    change (sleep_for wait) with ([] ++ sleep_for wait)%list.
    eapply extends_trans; [apply perf_counter_extends | apply sleep_extends].
  - rewrite play_event_clock. unfold w3. by destruct (0 <? wait)%float.
Qed.

(** The player of the thread in a pass that began with the player [p] at
    the access number [a0]: [p], with the flag raised once [stop] was
    called. *)
Lemma arrived_refl (a : nat) : arrived E a a = false.
Proof.
  unfold arrived. destruct (Player.cancel E) as [k|]; [|reflexivity].
  destruct (Nat.leb_spec a k), (Nat.ltb_spec k a); simpl; auto; lia.
Qed.

Lemma read_stop_flag_pass (p : Player.t) (a0 : nat) (w : Player.world) :
  a0 <= Player.accesses w ->
  Player.player w
  = (if arrived E a0 (Player.accesses w) then Player.stop_request p else p) ->
  fst (Player.read_stop_flag E w) = flag_seen E p a0 (Player.accesses w)
  /\ Player.player (snd (Player.read_stop_flag E w))
     = (if arrived E a0 (S (Player.accesses w))
        then Player.stop_request p else p).
Proof.
  intros Hle Hp.
  unfold Player.read_stop_flag, Player.shared, Player.stop_arrives,
    flag_seen. cbn [fst snd Player.player].
  rewrite Hp. unfold arrived.
  destruct (Player.cancel E) as [k|].
  - destruct (Nat.eqb_spec k (Player.accesses w)),
             (Nat.leb_spec a0 k), (Nat.ltb_spec k (Player.accesses w)),
             (Nat.ltb_spec k (S (Player.accesses w)));
      try lia; cbn [andb];
      unfold Player.stop_request;
      destruct p as [ev [] [] lc oc oe]; split; reflexivity.
  - by rewrite andb_false_r, orb_false_r.
Qed.

Lemma play_events_trace (p : Player.t) (a0 : nat) (start : float)
      (events : list Event.t) :
  forall w : Player.world,
    a0 <= Player.accesses w ->
    Player.player w
    = (if arrived E a0 (Player.accesses w)
       then Player.stop_request p else p) ->
    exists tr,
      Player.trace (Player.play_events E start events w)
        = (Player.trace w ++ tr)%list
      /\ pass_trace E p a0 start (Player.accesses w) (Player.clock_reads w)
                    events tr.
Proof.
  induction events as [|e rest IH]; intros w Hle Hp.
  - exists []. simpl. rewrite app_nil_r. split; [reflexivity|constructor].
  - rewrite play_events_cons. cbv zeta.
    destruct (read_stop_flag_pass p a0 w Hle Hp) as [Hflag Hp1].
    assert (Hread : Player.trace (snd (Player.read_stop_flag E w))
              = (Player.trace w
                 ++ [CheckStop (fst (Player.read_stop_flag E w))])%list)
      by reflexivity.
    assert (Hclock : Player.clock_reads (snd (Player.read_stop_flag E w))
                     = Player.clock_reads w) by reflexivity.
    assert (Hacc : Player.accesses (snd (Player.read_stop_flag E w))
                   = S (Player.accesses w)) by reflexivity.
    destruct (fst (Player.read_stop_flag E w)).
    + exists [CheckStop true]. split; [exact Hread|].
      by apply pass_stopped.
    + set (w1 := snd (Player.read_stop_flag E w)) in *.
      change (fst (Player.perf_counter E w1))
        with (Player.clock E (Player.clock_reads w1)).
      rewrite Hclock.
      set (d := (start + Event.timestamp e
                 - Player.clock E (Player.clock_reads w))%float).
      destruct (Player.sleep_error E d) as [ex|] eqn:Herr.
      * exists [CheckStop false; SleepRaised d ex]. split.
        -- cbn [Player.die Player.emit Player.trace Player.perf_counter snd].
           rewrite Hread, <- app_assoc. reflexivity.
        -- by apply pass_raised.
      * destruct (event_step_extends start e w1)
          as (tail & (Hp4 & Ha4 & Ht & _) & Hq & Hcl).
        cbv zeta in Hp4, Ha4, Ht, Hcl.
        change (fst (Player.perf_counter E w1))
          with (Player.clock E (Player.clock_reads w1)) in Hp4, Ha4, Ht, Hcl.
        rewrite Hclock in Hp4, Ha4, Ht, Hcl. fold d in Hp4, Ha4, Ht, Hcl.
        destruct (IH (Player._play_event E e
                        (if (0 <? d)%float
                         then Player.emit (Slept d)
                                (snd (Player.perf_counter E w1))
                         else snd (Player.perf_counter E w1))))
          as (tr & Htr & Hpass).
        { rewrite Ha4, Hacc. lia. }
        { by rewrite Hp4, Ha4, Hacc, Hp1. }
        rewrite Hcl, Ha4, Hacc in Hpass.
        eexists. split.
        -- rewrite Htr, Ht, Hread. rewrite <- !app_assoc. reflexivity.
        -- simpl. apply pass_event; auto.
Qed.

(** The observations of a pass of [_play_once]. *)
Lemma play_once_trace (w : Player.world) :
  exists tr,
    Player.trace (Player._play_once E w) = (Player.trace w ++ tr)%list
    /\ pass_trace E (Player.player w) (Player.accesses w)
                  (Player.clock E (Player.clock_reads w))
                  (Player.accesses w) (S (Player.clock_reads w))
                  (Player._events (Player.player w)) tr.
Proof.
  unfold Player._play_once.
  destruct (Player._events (Player.player w)) as [|e events].
  - exists []. rewrite app_nil_r. split; [reflexivity|constructor].
  - apply (play_events_trace (Player.player w) (Player.accesses w)
             (Player.clock E (Player.clock_reads w)) (e :: events)
             (snd (Player.perf_counter E w))).
    + reflexivity.
    + cbn [Player.perf_counter snd Player.player Player.accesses].
      by rewrite arrived_refl.
Qed.

Variable p0 : Player.t.

(** A pass from a running world: the events it injects are the first
    events of the timeline. It injects them all and the run goes on, or it
    has read the flag raised, or a sleep has raised and ended the thread. *)
Lemma play_events_outcome (start : float) (events : list Event.t) :
  forall w : Player.world,
    running E p0 w ->
    let w' := Player.play_events E start events w in
    exists pre,
      Player.dispatched (Player.trace w')
      = (Player.dispatched (Player.trace w) ++ pre)%list
      /\ Player.accesses w <= Player.accesses w'
      /\ ((pre = events /\ running E p0 w')
          \/ (pre `prefix_of` events /\ running E p0 w'
              /\ requested E (Player.accesses w') = true)
          \/ (pre `prefix_of` events /\ ended_by_exception E p0 w'
              /\ exists (j : nat) (e : Event.t),
                   e ∈ events
                   /\ Player.sleep_error E
                        (start + Event.timestamp e - Player.clock E j)
                      <> None)).
Proof.
  induction events as [|e rest IH]; intros w Hrun.
  - exists []. simpl. rewrite app_nil_r. auto.
  - cbv zeta. rewrite play_events_cons. cbv zeta.
    pose proof (read_stop_flag_running E p0 w Hrun) as Hread.
    destruct (Player.read_stop_flag E w) as [b w1] eqn:Hbw.
    destruct Hread as (Hrun1 & Hacc1 & Htr1 & Hb). cbn [fst snd].
    destruct b.
    + exists []. rewrite Htr1, dispatched_app, app_nil_r. simpl.
      split; [by rewrite app_nil_r|]. split; [lia|].
      right; left. split; [apply prefix_nil|]. split; [exact Hrun1|].
      by rewrite Hacc1.
    + change (fst (Player.perf_counter E w1))
        with (Player.clock E (Player.clock_reads w1)).
      set (d := (start + Event.timestamp e
                 - Player.clock E (Player.clock_reads w1))%float).
      destruct (Player.sleep_error E d) as [ex|] eqn:Herr.
      * exists [].
        assert (Hend : ended_by_exception E p0
                  (Player.die ex
                     (Player.emit (SleepRaised d ex)
                        (snd (Player.perf_counter E w1))))).
        { split; simpl.
          - apply (run_events _ _ _ Hrun1).
          - apply (run_playing _ _ _ Hrun1).
          - rewrite completions_app, (run_completions _ _ _ Hrun1).
            reflexivity.
          - discriminate. }
        split; [|split].
        -- simpl. rewrite Htr1, !dispatched_app. simpl.
           by rewrite !app_nil_r.
        -- simpl. lia.
        -- right; right. split; [apply prefix_nil|]. split; [exact Hend|].
           exists (Player.clock_reads w1), e.
           split; [apply elem_of_cons; by left|].
           fold d. by rewrite Herr.
      * destruct (event_step_extends start e w1)
          as (tail & Hx & Hq & _).
        cbv zeta in Hx.
        change (fst (Player.perf_counter E w1))
          with (Player.clock E (Player.clock_reads w1)) in Hx.
        fold d in Hx.
        destruct (injection_obs_quiet tail Hq) as [Hc Hd].
        destruct (sleep_for_quiet d) as [Hsc Hsd].
        assert (Hc13 : Player.completions
                         (sleep_for d ++ Dispatch e :: tail) = 0).
        { rewrite completions_app, Hsc.
          change (Dispatch e :: tail) with ([Dispatch e] ++ tail)%list.
          by rewrite completions_app, Hc. }
        pose proof (running_extends E p0 _ _ _ Hrun1 Hx Hc13) as Hrun4.
        destruct (IH _ Hrun4) as (pre & Hdisp & Hacc & Hpre).
        cbv zeta in Hdisp, Hacc, Hpre.
        destruct Hx as (_ & Ha13 & Ht13 & _).
        exists (e :: pre). split; [|split].
        -- rewrite Hdisp, Ht13, Htr1.
           rewrite !dispatched_app, Hsd. simpl. rewrite Hd.
           by rewrite app_nil_r, <- app_assoc.
        -- lia.
        -- destruct Hpre as [[-> Hrun'] | [(Hpre & Hrun' & Hreq)
                                           | (Hpre & Hend & j & e' & He' & Hj)]].
           ++ left. by split.
           ++ right; left. split; [by apply prefix_cons | by split].
           ++ right; right. split; [by apply prefix_cons|].
              split; [exact Hend|]. exists j, e'.
              split; [apply elem_of_cons; by right | exact Hj].
Qed.

(** When [time.sleep] accepts the waits of the pass, the run goes on after
    it, and a pass that [stop] does not cut short injects every event. *)
Lemma play_events_running (start : float) (events : list Event.t) :
  (forall (j : nat) (e : Event.t),
      e ∈ events ->
      Player.sleep_error E (start + Event.timestamp e - Player.clock E j)
      = None) ->
  forall w : Player.world,
    running E p0 w ->
    let w' := Player.play_events E start events w in
    running E p0 w'
    /\ Player.accesses w <= Player.accesses w'
    /\ (Player.cancel E = None ->
        Player.dispatched (Player.trace w')
        = (Player.dispatched (Player.trace w) ++ events)%list).
Proof.
  intros Hwaits w Hrun. cbv zeta.
  destruct (play_events_outcome start events w Hrun)
    as (pre & Hdisp & Hacc & Hpre).
  cbv zeta in Hdisp, Hacc, Hpre.
  destruct Hpre as [[-> Hrun'] | [(Hpre & Hrun' & Hreq)
                                  | (_ & _ & j & e & He & Hj)]].
  - auto.
  - split; [exact Hrun' | split; [exact Hacc|]].
    intros Hnone. rewrite requested_none in Hreq by assumption.
    discriminate.
  - exfalso. apply Hj. by apply Hwaits.
Qed.

End PassFacts.

(** *** The loop of [_run] *)

(** One iteration of the loop of [_run]. *)
Lemma run_loop_S (E : Player.env) (n : nat) (loop : Z) (w : Player.world) :
  Player.run_loop E (S n) loop w =
    let bw := Player.read_stop_flag E w in
    if fst bw then (true, loop, snd bw)
    else
      let w2 := Player._play_once E (snd bw) in
      match Player.uncaught w2 with
      | Some _ => (true, (loop + 1)%Z, w2)
      | None =>
          if (0 <? Player._loop_count (Player.player w2))%Z
             && (Player._loop_count (Player.player w2) <=? loop + 1)%Z
          then (true, (loop + 1)%Z, w2)
          else Player.run_loop E n (loop + 1)%Z w2
      end.
Proof. reflexivity. Qed.

(** A pass of [_play_once] from a running world. *)
Lemma play_once_outcome (E : Player.env) (p0 : Player.t)
      (w : Player.world) :
  running E p0 w ->
  let w' := Player._play_once E w in
  exists pre,
    Player.dispatched (Player.trace w')
    = (Player.dispatched (Player.trace w) ++ pre)%list
    /\ Player.accesses w <= Player.accesses w'
    /\ ((pre = Player._events p0 /\ running E p0 w')
        \/ (pre `prefix_of` Player._events p0 /\ running E p0 w'
            /\ requested E (Player.accesses w') = true)
        \/ (pre `prefix_of` Player._events p0
            /\ ended_by_exception E p0 w'
            /\ ~ waits_accepted E (Player._events p0))).
Proof.
  intros Hrun. cbv zeta. unfold Player._play_once.
  rewrite (run_events _ _ _ Hrun).
  destruct (Player._events p0) as [|e events] eqn:Hev.
  - exists []. rewrite app_nil_r. auto.
  - pose proof (perf_counter_extends E w) as Hx.
    assert (Hstart : fst (Player.perf_counter E w)
                     = Player.clock E (Player.clock_reads w)) by reflexivity.
    destruct (Player.perf_counter E w) as [start w1].
    cbn [fst snd] in Hx, Hstart.
    assert (H1 : running E p0 w1)
      by (eapply running_extends; [exact Hrun | exact Hx | reflexivity]).
    destruct (play_events_outcome E p0 start (e :: events) w1 H1)
      as (pre & Hdisp & Hacc & Hpre).
    cbv zeta in Hdisp, Hacc, Hpre.
    destruct Hx as (_ & Ha & Ht & _). rewrite Ha in Hacc.
    rewrite Ht, app_nil_r in Hdisp.
    exists pre. split; [exact Hdisp|]. split; [exact Hacc|].
    destruct Hpre as [H | [H | (Hpre & Hend & j & e' & He' & Hj)]];
      [by left | by right; left |].
    right; right. split; [exact Hpre|]. split; [exact Hend|].
    intros Hwaits. apply Hj. rewrite Hstart. by apply Hwaits.
Qed.

Section LoopFacts.

Variable E : Player.env.
Variable p0 : Player.t.

(** [time.sleep] accepts every wait of the run. *)
Hypothesis Hwaits : waits_accepted E (Player._events p0).








End LoopFacts.


(** ** Playback: loops, completion, cancellation, injection *)

Lemma run_exit_idle (E : Player.env) (w : Player.world) :
  Player._playing (Player.player (Player.run_exit E w)) = false.
Proof.
  unfold Player.run_exit.
  set (w1 := Player.write_idle E w).
  assert (Hidle : Player._playing (Player.player w1) = false) by reflexivity.
  assert (Hs1 : Player.shared E w1 = Player.player w1).
  { unfold Player.shared, Player.stop_request.
    destruct (Player.stop_arrives _ _); [|done]. by rewrite Hidle. }
  destruct (Player.on_complete (Player.player w1)); [|exact Hidle].
  unfold Player.read_stop_flag. rewrite Hs1. cbv beta iota.
  by destruct (negb _).
Qed.



(** The world of a thread that has ended: the world after the end of
    [_run], or the world in which the exception was raised. *)
Lemma run_result (E : Player.env) (fuel : nat) (w w' : Player.world) :
  Player._run E fuel w = Some w' ->
  (Player.uncaught (snd (Player.run_loop E fuel 0 w)) = None
   /\ w' = Player.run_exit E (snd (Player.run_loop E fuel 0 w)))
  \/ (Player.uncaught (snd (Player.run_loop E fuel 0 w)) <> None
      /\ w' = snd (Player.run_loop E fuel 0 w)).
Proof.
  unfold Player._run. destruct (Player.run_loop E fuel 0 w) as [[[] l] w''];
    simpl; [|discriminate].
  destruct (Player.uncaught w'') eqn:Hu; intros [= <-].
  - right. split; [discriminate | reflexivity].
  - left. split; reflexivity.
Qed.







(** C9, on a timeline with a gap of one hour, played once: after the read
    of the flag that precedes the second event the thread sleeps 3600 s in
    one call and injects the event, and reads the flag again only after
    that. A call of [stop] made at any time during this sleep (here: before
    the thread's next access to the shared state) is seen one hour later,
    after the second event was injected; no sleep of the run is bounded by
    the timeout of one second of [stop]. *)
Lemma one_hour_sleep_is_not_interrupted :
  Player.start (Player.set_loop (ready_player sparse_timeline) 1)
  = (sparse_player, true)
  /\ option_map Player.trace
       (Player._run (still_env (Some 3)) 1 (Player.init_world sparse_player))
     = Some [CheckStop false;
             CheckStop false;
             Dispatch (Recorder.move_event 0 10 10);
             OsCall (SetPosition (PInt 10) (PInt 10));
             CheckStop false;
             Slept 3600;
             Dispatch (Recorder.move_event 3600 20 20);
             OsCall (SetPosition (PInt 20) (PInt 20));
             CheckStop true]
  /\ option_map (fun w => sleeps_within 1 (Player.trace w))
       (Player._run (still_env (Some 3)) 1 (Player.init_world sparse_player))
     = Some false.
Proof. repeat split; vm_compute; reflexivity. Qed.

(** C9, as the program has it. In a pass the cancellation flag is read
    once per event, before the wait for that event, and nowhere else: the
    observations of [_play_once] are, for each event in turn, one read of
    the flag, which is raised exactly when it was raised before the pass
    or [stop] has been called since; then, when the flag is lowered, at
    most one call of [time.sleep], for all the time that is left, at the
    reading of the clock made for that event, until the event is due;
    then, when the call returns, the injection of the event. A raised flag
    ends the pass, and so does a sleep that raises. *)
Theorem pass_checks_flag_once_per_event (E : Player.env) (w : Player.world) :
  exists tr,
    Player.trace (Player._play_once E w) = (Player.trace w ++ tr)%list
    /\ pass_trace E (Player.player w) (Player.accesses w)
                  (Player.clock E (Player.clock_reads w))
                  (Player.accesses w) (S (Player.clock_reads w))
                  (Player._events (Player.player w)) tr.
Proof. apply play_once_trace. Qed.

(** C10. A MouseClick event whose [x], [y], [button] or [pressed] is
    absent, a MouseScroll event whose [x] or [y] is absent and a MouseMove
    event whose [x] or [y] is absent are skipped in silence: the handler
    issues no controller call and raises nothing, so [_play_event] adds
    nothing to the world but the record of its own call (no controller
    call, no logged error, no [on_error]). And the calls of a click handler
    are presses and releases of a button only: the coordinates it insists
    on are not used. *)
Theorem absent_payload_is_skipped (E : Player.env) (e : Event.t)
        (w : Player.world) :
  (Event.type e = MOUSE_CLICK
   /\ (Event.x e = PNone \/ Event.y e = PNone
       \/ Event.button e = PNone \/ Event.pressed e = PNone))
  \/ (Event.type e = MOUSE_SCROLL
      /\ (Event.x e = PNone \/ Event.y e = PNone))
  \/ (Event.type e = MOUSE_MOVE
      /\ (Event.x e = PNone \/ Event.y e = PNone)) ->
  Player.dispatch e = Ok []
  /\ Player._play_event E e w = Player.emit (Dispatch e) w
  /\ forall e' : Event.t,
       Forall (fun a => exists b, a = MousePress b \/ a = MouseRelease b)
              (Player._play_mouse_click e').
Proof.
  intros H.
  assert (Hd : Player.dispatch e = Ok []).
  { unfold Player.dispatch, Player._play_mouse_click,
      Player._play_mouse_scroll, Player._play_mouse_move.
    destruct H as [[-> H] | [[-> H] | [-> H]]].
    - destruct H as [-> | [-> | [-> | ->]]]; simpl;
        rewrite ?andb_false_r; reflexivity.
    - destruct H as [-> | ->]; simpl; rewrite ?andb_false_r; reflexivity.
    - destruct H as [-> | ->]; simpl; rewrite ?andb_false_r; reflexivity. }
  split; [exact Hd|]. split.
  - unfold Player._play_event. by rewrite Hd.
  - intros e'. unfold Player._play_mouse_click.
    destruct (_ && _); [|constructor].
    destruct (Py.truthy (Event.pressed e')); repeat constructor; eauto.
Qed.

Lemma absent_payload_is_skipped_witness :
  Player.dispatch (Event.mk MOUSE_CLICK 1 PNone (PInt 5) (PStr "left") PNone
                            (PBool true) PNone PNone) = Ok []
  /\ Player._play_event (still_env None)
       (Event.mk MOUSE_CLICK 1 PNone (PInt 5) (PStr "left") PNone
                 (PBool true) PNone PNone)
       (Player.init_world sparse_player)
     = Player.emit
         (Dispatch (Event.mk MOUSE_CLICK 1 PNone (PInt 5) (PStr "left") PNone
                             (PBool true) PNone PNone))
         (Player.init_world sparse_player)
  /\ forall e' : Event.t,
       Forall (fun a => exists b, a = MousePress b \/ a = MouseRelease b)
              (Player._play_mouse_click e').
Proof.
  apply (absent_payload_is_skipped (still_env None)
           (Event.mk MOUSE_CLICK 1 PNone (PInt 5) (PStr "left") PNone
                     (PBool true) PNone PNone)
           (Player.init_world sparse_player)).
  left. split; [reflexivity|]. left. reflexivity.
Defined.

(** * Further properties *)

(** ** The codec *)

Lemma lookup_foldl_set_field (e : Event.t) (ks : list string) :
  forall (d : gmap string pyval) (k : string),
    foldl (Event.set_field e) d ks !! k =
      if bool_decide (k ∈ ks) && negb (Py.is_none (Event.getattr e k))
      then Some (Event.getattr e k)
      else d !! k.
Proof.
  induction ks as [|k0 ks IH]; intros d k; simpl; [reflexivity|].
  rewrite IH, lookup_set_field.
  destruct (decide (k ∈ ks)) as [Hin|Hin].
  - rewrite !bool_decide_true by (try apply elem_of_cons; auto). simpl.
    destruct (String.eqb_spec k0 k) as [->|Hne];
      destruct (Py.is_none (Event.getattr e k)); reflexivity.
  - rewrite (bool_decide_false (k ∈ ks)) by assumption. simpl.
    destruct (String.eqb_spec k0 k) as [->|Hne].
    + rewrite bool_decide_true by (apply elem_of_cons; by left). simpl.
      by destruct (Py.is_none (Event.getattr e k)).
    + rewrite bool_decide_false; [reflexivity|].
      intros [?|?]%elem_of_cons; congruence.
Qed.

Lemma getattr_unknown (e : Event.t) (k : string) :
  k ∉ Event.optional_fields -> Event.getattr e k = PNone.
Proof.
  intros Hk. unfold Event.getattr.
  repeat (match goal with
          | |- context [String.eqb k ?s] =>
              destruct (String.eqb_spec k s) as [->|_];
              [exfalso; apply Hk; unfold Event.optional_fields; set_solver|]
          end).
  reflexivity.
Qed.

Lemma to_dict_lookup (e : Event.t) (k : string) :
  Event.to_dict e !! k =
    (if String.eqb k "type"
     then Some (PStr (EventTypeM.value (Event.type e)))
     else if String.eqb k "timestamp"
     then Some (PFloat (Event.timestamp e))
     else if Py.is_none (Event.getattr e k) then None
     else Some (Event.getattr e k)).
Proof.
  unfold Event.to_dict. rewrite lookup_foldl_set_field.
  destruct (String.eqb_spec k "type") as [->|Hty]; [reflexivity|].
  destruct (String.eqb_spec k "timestamp") as [->|Hts]; [reflexivity|].
  rewrite lookup_insert_ne, lookup_insert_ne, lookup_empty by congruence.
  destruct (decide (k ∈ Event.optional_fields)) as [Hin|Hin].
  - rewrite bool_decide_true by assumption. simpl.
    by destruct (Py.is_none (Event.getattr e k)).
  - rewrite (getattr_unknown e k Hin). simpl. by rewrite andb_false_r.
Qed.

(** X1. The dict of an event holds its type under "type", its timestamp
    under "timestamp", each optional field that is not [None] under its
    own name, and nothing else; in particular no value of it is [None]. *)
Theorem to_dict_emits_populated_fields (e : Event.t) (k : string) :
  Event.to_dict e !! k =
    (if String.eqb k "type"
     then Some (PStr (EventTypeM.value (Event.type e)))
     else if String.eqb k "timestamp"
     then Some (PFloat (Event.timestamp e))
     else if Py.is_none (Event.getattr e k) then None
     else Some (Event.getattr e k))
  /\ Event.to_dict e !! k <> Some PNone
  /\ (is_Some (Event.to_dict e !! k) -> k ∈ known_fields).
Proof.
  pose proof (to_dict_lookup e k) as Heq.
  split; [exact Heq|]. rewrite Heq. split.
  - destruct (String.eqb k "type"); [discriminate|].
    destruct (String.eqb k "timestamp"); [discriminate|].
    destruct (Event.getattr e k); simpl; discriminate.
  - unfold known_fields.
    destruct (String.eqb_spec k "type") as [Hty|Hty];
      [intros _; rewrite Hty; apply elem_of_cons; by left|].
    destruct (String.eqb_spec k "timestamp") as [Hts|Hts];
      [intros _; rewrite Hts; apply elem_of_cons; right;
       apply elem_of_cons; by left|].
    destruct (decide (k ∈ Event.optional_fields)) as [Hin|Hin];
      [intros _; apply elem_of_cons; right; apply elem_of_cons; by right|].
    rewrite (getattr_unknown e k Hin). simpl. by intros [? ?].
Qed.

(** X2. A field whose name is not one of the nine known names does not
    count: adding it to a record, or changing it, changes neither whether
    the record loads nor the event it loads to. *)
Theorem from_dict_ignores_unknown_fields (m : gmap string pyval)
        (k : string) (v : pyval) :
  k ∉ known_fields ->
  Event.from_dict (PDict (<[k := v]> m)) = Event.from_dict (PDict m).
Proof.
  intros Hk. unfold known_fields, Event.optional_fields in Hk.
  unfold Event.from_dict, Py.contains, Py.getitem, Py.get.
  rewrite !(lookup_insert_ne m k) by set_solver. reflexivity.
Qed.

Lemma from_dict_ignores_unknown_fields_witness :
  Event.from_dict
    (PDict (<["comment" := PStr "x"]>
              (<["timestamp" := PInt 2]> (<["type" := PStr "key_press"]> ∅))))
  = Event.from_dict
      (PDict (<["timestamp" := PInt 2]> (<["type" := PStr "key_press"]> ∅))).
Proof.
  apply (from_dict_ignores_unknown_fields
           (<["timestamp" := PInt 2]> (<["type" := PStr "key_press"]> ∅))
           "comment" (PStr "x")).
  unfold known_fields, Event.optional_fields.
  intros H. repeat (apply elem_of_cons in H as [H|H]; [discriminate|]).
  by apply elem_of_nil in H.
Defined.

(** X3. No value that is not a dict loads as an event: a list or a string
    raises the [ValueError] of missing fields, unless it contains both
    "type" and "timestamp" (as elements, as substrings), and then the
    subscript raises [TypeError]; [None], booleans and numbers raise
    [TypeError] at the membership test. *)
Theorem from_dict_rejects_non_dict (d : pyval) :
  (forall m, d <> PDict m) ->
  Event.from_dict d =
    match Py.contains "type" d, Py.contains "timestamp" d with
    | Ok true, Ok true => Raise TypeError
    | Ok _, Ok _ => Raise (ValueError RequiredFieldsMissing)
    | _, _ => Raise TypeError
    end.
Proof.
  intros Hd. unfold Event.from_dict.
  destruct d as [|b|z|f|s|l|m]; try reflexivity.
  - simpl. destruct (Py.str_contains "type" s); simpl; [|reflexivity].
    destruct (Py.str_contains "timestamp" s); reflexivity.
  - simpl. destruct (existsb _ l); simpl; [|reflexivity].
    destruct (existsb _ l); reflexivity.
  - by destruct (Hd m).
Qed.

Lemma from_dict_rejects_non_dict_witness :
  Event.from_dict (PStr "type and timestamp") = Raise TypeError.
Proof.
  exact (from_dict_rejects_non_dict (PStr "type and timestamp")
           ltac:(discriminate)).
Defined.

Lemma of_value_inv (v : pyval) (t : EventType) :
  EventTypeM.of_value v = Some t -> v = PStr (EventTypeM.value t).
Proof.
  unfold EventTypeM.of_value, EventTypeM.members. simpl.
  destruct v as [| | | |s| |]; simpl; try discriminate.
  repeat (match goal with
          | |- context [String.eqb s ?c] =>
              destruct (String.eqb_spec s c) as [->|_];
              [intros [= <-]; reflexivity|]
          end).
  discriminate.
Qed.

(** X4. Loading a record and serializing the event again keeps the known
    fields and drops the rest: "type" is kept as it was, "timestamp"
    becomes the float it was converted to, an optional field is kept
    unless its value was [None], and a field with any other name is not
    written back. *)
Theorem resave_keeps_known_fields (m : gmap string pyval) (e : Event.t) :
  Event.from_dict (PDict m) = Ok e ->
  Event.to_dict e !! "type" = m !! "type"
  /\ (exists ts, m !! "timestamp" = Some ts
                 /\ Py.to_float ts = Ok (Event.timestamp e)
                 /\ Event.to_dict e !! "timestamp"
                    = Some (PFloat (Event.timestamp e)))
  /\ (forall k, k ∈ Event.optional_fields ->
        Event.to_dict e !! k
        = match m !! k with Some PNone => None | o => o end)
  /\ (forall k, k ∉ known_fields -> Event.to_dict e !! k = None).
Proof.
  intros Hload. pose proof (Event_from_dict_cases m) as Hcases.
  destruct (m !! "type") as [ty|] eqn:Hty; [|congruence].
  destruct (m !! "timestamp") as [ts|] eqn:Hts; [|congruence].
  destruct (EventTypeM.of_value ty) as [t|] eqn:Hof; [|congruence].
  destruct (Py.is_int_or_float ts); [|congruence].
  destruct (Py.to_float ts) as [f|ex] eqn:Hf;
    [|destruct Hcases; congruence].
  rewrite Hload in Hcases. injection Hcases as ->.
  apply of_value_inv in Hof. subst ty.
  split; [by rewrite to_dict_type|].
  split; [exists ts; by rewrite to_dict_timestamp|].
  split.
  - intros k Hk. rewrite to_dict_lookup.
    unfold Event.optional_fields in Hk.
    repeat (apply elem_of_cons in Hk as [-> | Hk];
            [simpl; unfold Py.get;
             match goal with
             | |- context [m !! ?k'] => by destruct (m !! k') as [[]|]
             end|]).
    by apply elem_of_nil in Hk.
  - intros k Hk. rewrite to_dict_lookup.
    unfold known_fields in Hk.
    destruct (String.eqb_spec k "type") as [->|_];
      [exfalso; apply Hk; apply elem_of_cons; by left|].
    destruct (String.eqb_spec k "timestamp") as [->|_];
      [exfalso; apply Hk; apply elem_of_cons; right;
       apply elem_of_cons; by left|].
    rewrite getattr_unknown; [reflexivity|].
    intros Hin. apply Hk. apply elem_of_cons; right.
    apply elem_of_cons; by right.
Qed.

Lemma resave_keeps_known_fields_witness :
  Event.to_dict (Recorder.blank KEY_PRESS 2) !! "type"
  = (<["x" := PNone]>
       (<["note" := PStr "n"]>
          (<["timestamp" := PInt 2]>
             (<["type" := PStr "key_press"]> ∅))) : gmap string pyval)
    !! "type".
Proof.
  refine (proj1 (resave_keeps_known_fields
                   (<["x" := PNone]>
                      (<["note" := PStr "n"]>
                         (<["timestamp" := PInt 2]>
                            (<["type" := PStr "key_press"]> ∅))))
                   (Recorder.blank KEY_PRESS 2) _)).
  vm_compute. reflexivity.
Defined.

Lemma load_events_Forall2 (i : nat) (l : list pyval) (evs : list Event.t) :
  Macro.load_events i l = Ok evs ->
  Forall2 (fun v e => Event.from_dict v = Ok e) l evs.
Proof.
  revert i evs. induction l as [|v l IH]; intros i evs H; simpl in H.
  - injection H as <-. constructor.
  - destruct (Event.from_dict v) as [e|] eqn:He; [|discriminate].
    destruct (Macro.load_events (S i) l) as [evs'|] eqn:Hl; [|discriminate].
    simpl in H. injection H as <-. constructor; eauto.
Qed.

(** X5. A macro that loads has one event per element of "events", in the
    same order, each the result of loading that element; its name is the
    "name" of the record, "Untitled" when there is none, and its creation
    time is "created_at", the empty string when there is none. *)
Theorem Macro_load_keeps_order (m : gmap string pyval) (mac : Macro.t) :
  Macro.from_dict (PDict m) = Ok mac ->
  (exists l, m !! "events" = Some (PList l)
             /\ Forall2 (fun v e => Event.from_dict v = Ok e)
                        l (Macro.events mac))
  /\ Macro.name mac = default (PStr "Untitled") (m !! "name")
  /\ Macro.created_at mac = default (PStr "") (m !! "created_at").
Proof.
  unfold Macro.from_dict. intros H.
  destruct (m !! "events") as [v|]; [|discriminate].
  destruct v as [| | | | |l|]; try discriminate.
  destruct (Macro.load_events 0 l) as [evs|] eqn:Hl; [|discriminate].
  simpl in H. injection H as <-. simpl.
  split; [|split; reflexivity].
  exists l. split; [reflexivity|]. by apply load_events_Forall2 in Hl.
Qed.

Lemma Macro_load_keeps_order_witness :
  (exists l, sample_record !! "events" = Some (PList l)
             /\ Forall2 (fun v e => Event.from_dict v = Ok e)
                        l [Recorder.blank KEY_PRESS 2])
  /\ PStr "Untitled" = default (PStr "Untitled") (sample_record !! "name")
  /\ PStr "" = default (PStr "") (sample_record !! "created_at").
Proof.
  apply (Macro_load_keeps_order sample_record
           (Macro.mk (PStr "Untitled") [Recorder.blank KEY_PRESS 2]
                     (PStr ""))).
  vm_compute. reflexivity.
Defined.

(** ** Recording sessions *)

Lemma recordable_key_name (o : option string) (name : string) :
  Recorder.recordable o = Some name -> is_key_name (PStr name) = true.
Proof.
  unfold Recorder.recordable, is_key_name.
  destruct o as [n|]; [|discriminate].
  destruct (negb (String.eqb n "") && _) eqn:Hok; [|discriminate].
  by intros [= <-].
Qed.

(** What one notification does to a recorder that is recording: nothing,
    or one event appended. *)
Lemma handle_recording (r : Recorder.t) (now : float)
      (n : Recorder.notification) :
  Recorder._recording r = true ->
  Recorder.handle r now n = r
  \/ exists e,
       Recorder._events (Recorder.handle r now n)
         = (Recorder._events r ++ [e])%list
       /\ Recorder._start_time (Recorder.handle r now n)
          = Recorder._start_time r
       /\ Recorder._recording (Recorder.handle r now n) = true
       /\ Event.timestamp e = Recorder._ts r now
       /\ well_formed e = true
       /\ match Event.type e with
          | MOUSE_MOVE =>
              throttled r now = false
              /\ Recorder._last_move (Recorder.handle r now n)
                 = Event.timestamp e
          | _ => Recorder._last_move (Recorder.handle r now n)
                 = Recorder._last_move r
          end.
Proof.
  intros Hrec. destruct n as [x y|x y b pressed|x y dx dy|key|key]; simpl.
  - destruct (throttled r now) eqn:Hthr.
    + left. by apply on_move_discard.
    + right. rewrite on_move_append by assumption.
      eexists. repeat split; reflexivity.
  - right. unfold Recorder._on_click. rewrite Hrec. simpl.
    eexists. repeat split; try reflexivity; try assumption.
    by destruct b, pressed.
  - right. unfold Recorder._on_scroll. rewrite Hrec. simpl.
    eexists. repeat split; try reflexivity; assumption.
  - unfold Recorder._on_press. rewrite Hrec. simpl.
    destruct (Recorder.recordable (Recorder._key_name key)) as [name|] eqn:Hn;
      [right|by left].
    apply recordable_key_name in Hn.
    eexists. repeat split; try reflexivity; try assumption.
    match goal with
    | |- well_formed ?e = true =>
        change (well_formed e)
          with (is_key_name (PStr name) && true && true)
    end.
    by rewrite Hn.
  - unfold Recorder._on_release. rewrite Hrec. simpl.
    destruct (Recorder.recordable (Recorder._key_name key)) as [name|] eqn:Hn;
      [right|by left].
    apply recordable_key_name in Hn.
    eexists. repeat split; try reflexivity; try assumption.
    match goal with
    | |- well_formed ?e = true =>
        change (well_formed e)
          with (is_key_name (PStr name) && true && true)
    end.
    by rewrite Hn.
Qed.

Lemma feed_cons (r : Recorder.t) (c : float * Recorder.notification)
      (calls : list (float * Recorder.notification)) :
  Recorder.feed r (c :: calls)
  = Recorder.feed (Recorder.handle r (fst c) (snd c)) calls.
Proof. reflexivity. Qed.

(** What a stream of notifications does to a recorder that is recording. *)
Lemma feed_recording (calls : list (float * Recorder.notification)) :
  forall r : Recorder.t,
    Recorder._recording r = true ->
    exists added,
      Recorder._events (Recorder.feed r calls)
        = (Recorder._events r ++ added)%list
      /\ Recorder._start_time (Recorder.feed r calls) = Recorder._start_time r
      /\ Recorder._recording (Recorder.feed r calls) = true
      /\ length added <= length calls
      /\ map Event.timestamp added `sublist_of` stamps r calls
      /\ Forall (fun e => well_formed e = true) added
      /\ spaced_moves (Recorder._last_move r) added = true.
Proof.
  induction calls as [|[now n] calls IH]; intros r Hrec.
  - exists []. simpl. rewrite app_nil_r.
    repeat split; auto; try constructor.
  - rewrite feed_cons. simpl fst; simpl snd.
    destruct (handle_recording r now n Hrec)
      as [-> | (e & Hev & Hst & Hrec' & Hts & Hwf & Hmove)].
    + destruct (IH r Hrec) as (added & H1 & H2 & H3 & H4 & H5 & H6 & H7).
      exists added. repeat split; auto.
      * simpl. lia.
      * simpl. by apply sublist_cons.
    + destruct (IH _ Hrec') as (added & H1 & H2 & H3 & H4 & H5 & H6 & H7).
      exists (e :: added). repeat split.
      * rewrite H1, Hev, <- app_assoc. reflexivity.
      * congruence.
      * assumption.
      * simpl. lia.
      * simpl. rewrite Hts. apply sublist_skip.
        unfold stamps, Recorder._ts in *. by rewrite Hst in H5.
      * by constructor.
      * simpl. destruct (Event.type e); try (by rewrite <- Hmove).
        destruct Hmove as [Hthr Hlast]. rewrite Hlast in H7.
        rewrite H7, andb_true_r, Hts.
        unfold throttled in Hthr. by rewrite Hthr.
Qed.

Lemma handle_idle (r : Recorder.t) (now : float) (n : Recorder.notification) :
  Recorder._recording r = false -> Recorder.handle r now n = r.
Proof.
  intros Hidle. destruct n; simpl;
    unfold Recorder._on_move, Recorder._on_click, Recorder._on_scroll,
      Recorder._on_press, Recorder._on_release; by rewrite Hidle.
Qed.

Lemma feed_idle (calls : list (float * Recorder.notification))
      (r : Recorder.t) :
  Recorder._recording r = false -> Recorder.feed r calls = r.
Proof.
  intros Hidle. induction calls as [|c calls IH]; [reflexivity|].
  by rewrite feed_cons, handle_idle.
Qed.

(** X6. While recording, a stream of notifications only appends to the
    buffer: the events it held stay where they are, each notification
    adds at most one event, and the events added carry, in the order of
    arrival, the stamps [now - start_time] of the notifications that
    caused them. *)
Theorem session_appends_in_order (r : Recorder.t)
        (calls : list (float * Recorder.notification)) :
  Recorder._recording r = true ->
  exists added,
    Recorder._events (Recorder.feed r calls)
      = (Recorder._events r ++ added)%list
    /\ length added <= length calls
    /\ map Event.timestamp added `sublist_of` stamps r calls
    /\ Recorder.event_count (Recorder.feed r calls)
       = Recorder.event_count r + length added.
Proof.
  intros Hrec.
  destruct (feed_recording calls r Hrec) as (added & H1 & _ & _ & H4 & H5 & _).
  exists added. repeat split; try assumption.
  unfold Recorder.event_count. by rewrite H1, length_app.
Qed.

Lemma session_appends_in_order_witness :
  exists added,
    Recorder._events (Recorder.feed fresh_recorder sample_session)
      = (Recorder._events fresh_recorder ++ added)%list
    /\ length added <= length sample_session
    /\ map Event.timestamp added
       `sublist_of` stamps fresh_recorder sample_session
    /\ Recorder.event_count (Recorder.feed fresh_recorder sample_session)
       = Recorder.event_count fresh_recorder + length added.
Proof.
  apply (session_appends_in_order fresh_recorder sample_session).
  reflexivity.
Defined.

(** X7. The recorder only stores well-formed events: if the buffer holds
    well-formed events, it still does after any stream of notifications.
    So a MouseMove event has integer coordinates and no other field, a
    MouseClick event has coordinates, one of the names left, right and
    middle, and a boolean, a MouseScroll event has coordinates and steps,
    and a key event has a key name that is not empty and not in
    [EXCLUDED_HOTKEYS], with [pressed] true for a press and false for a
    release. *)
Theorem session_events_are_well_formed (r : Recorder.t)
        (calls : list (float * Recorder.notification)) :
  Forall (fun e => well_formed e = true) (Recorder._events r) ->
  Forall (fun e => well_formed e = true)
         (Recorder._events (Recorder.feed r calls)).
Proof.
  intros Hwf. destruct (Recorder._recording r) eqn:Hrec.
  - destruct (feed_recording calls r Hrec) as (added & H1 & _ & _ & _ & _ & H6 & _).
    rewrite H1. by apply Forall_app.
  - by rewrite feed_idle.
Qed.

Lemma session_events_are_well_formed_witness :
  Forall (fun e => well_formed e = true)
         (Recorder._events (Recorder.feed fresh_recorder sample_session)).
Proof.
  apply (session_events_are_well_formed fresh_recorder sample_session).
  constructor.
Defined.

(** X8. In the buffer of a session, consecutive MouseMove events are
    never less than [INTERVAL] apart, whatever other events lie between
    them, and the first one is never less than [INTERVAL] after the start
    of the session: the float test [t - previous < INTERVAL] is false for
    each of them. *)
Theorem recorded_moves_are_spaced (r : Recorder.t) (now : float)
        (calls : list (float * Recorder.notification)) :
  Recorder._recording r = false ->
  spaced_moves 0
    (Recorder._events (Recorder.feed (Recorder.start r now) calls)) = true.
Proof.
  intros Hidle.
  assert (Hstart : Recorder.start r now
                   = Recorder.mk [] now true 0%float)
    by (unfold Recorder.start; by rewrite Hidle).
  rewrite Hstart.
  destruct (feed_recording calls (Recorder.mk [] now true 0%float) eq_refl)
    as (added & H1 & _ & _ & _ & _ & _ & H7).
  rewrite H1. exact H7.
Qed.

Lemma recorded_moves_are_spaced_witness :
  spaced_moves 0
    (Recorder._events
       (Recorder.feed (Recorder.start Recorder.init 100) sample_session))
  = true.
Proof.
  apply (recorded_moves_are_spaced Recorder.init 100 sample_session).
  reflexivity.
Defined.

(** X9. [stop] freezes the buffer. It returns the events recorded and
    leaves the recorder idle; notifications that arrive afterwards are
    ignored, and a second [stop] returns the same events. [start] on
    the stopped recorder begins with an empty buffer, while [start] on a
    recorder that is recording changes nothing, the buffer included. *)
Theorem stop_freezes_buffer (r : Recorder.t) (now now' : float)
        (calls : list (float * Recorder.notification)) :
  snd (Recorder.stop r) = Recorder._events r
  /\ Recorder.is_recording (fst (Recorder.stop r)) = false
  /\ Recorder.feed (fst (Recorder.stop r)) calls = fst (Recorder.stop r)
  /\ Recorder.stop (Recorder.feed (fst (Recorder.stop r)) calls)
     = (fst (Recorder.stop r), Recorder._events r)
  /\ Recorder._events (Recorder.start (fst (Recorder.stop r)) now) = []
  /\ Recorder.start (Recorder.start r now) now' = Recorder.start r now.
Proof.
  assert (Hidle : Recorder._recording (fst (Recorder.stop r)) = false)
    by (unfold Recorder.stop; by destruct (Recorder._recording r) eqn:H).
  assert (Hev : Recorder._events (fst (Recorder.stop r)) = Recorder._events r)
    by (unfold Recorder.stop; by destruct (Recorder._recording r)).
  split; [unfold Recorder.stop; by destruct (Recorder._recording r)|].
  split; [exact Hidle|].
  split; [by apply feed_idle|].
  split.
  - rewrite feed_idle by assumption.
    unfold Recorder.stop at 1. rewrite Hidle. simpl. by rewrite Hev.
  - split.
    + unfold Recorder.start. by rewrite Hidle.
    + unfold Recorder.start. by destruct (Recorder._recording r) eqn:H;
        simpl; rewrite ?H.
Qed.

Lemma count_type_app (t : EventType) (l1 l2 : list Event.t) :
  count_type t (l1 ++ l2) = count_type t l1 + count_type t l2.
Proof. unfold count_type. by rewrite List.filter_app, length_app. Qed.

Lemma handle_counts (r : Recorder.t) (now : float)
      (n : Recorder.notification) :
  Recorder._recording r = true ->
  Recorder._recording (Recorder.handle r now n) = true
  /\ count_type MOUSE_CLICK (Recorder._events (Recorder.handle r now n))
     = count_type MOUSE_CLICK (Recorder._events r)
       + (if is_click (now, n) then 1 else 0)
  /\ count_type MOUSE_SCROLL (Recorder._events (Recorder.handle r now n))
     = count_type MOUSE_SCROLL (Recorder._events r)
       + (if is_scroll (now, n) then 1 else 0).
Proof.
  intros Hrec.
  destruct n as [x y|x y b pressed|x y dx dy|key|key]; simpl.
  - destruct (throttled r now) eqn:Hthr.
    + rewrite on_move_discard by assumption. auto.
    + rewrite on_move_append by assumption. simpl.
      rewrite !count_type_app. auto.
  - unfold Recorder._on_click. rewrite Hrec. simpl.
    rewrite !count_type_app. auto.
  - unfold Recorder._on_scroll. rewrite Hrec. simpl.
    rewrite !count_type_app. auto.
  - unfold Recorder._on_press. rewrite Hrec. simpl.
    destruct (Recorder.recordable _); simpl; rewrite ?count_type_app; auto.
  - unfold Recorder._on_release. rewrite Hrec. simpl.
    destruct (Recorder.recordable _); simpl; rewrite ?count_type_app; auto.
Qed.

(** X18. Only moves are throttled: while recording, every click
    notification and every scroll notification of a stream is recorded,
    so the buffer gains exactly one MouseClick event per click
    notification and one MouseScroll event per scroll notification. *)
Theorem clicks_and_scrolls_are_all_recorded (r : Recorder.t)
        (calls : list (float * Recorder.notification)) :
  Recorder._recording r = true ->
  count_type MOUSE_CLICK (Recorder._events (Recorder.feed r calls))
  = count_type MOUSE_CLICK (Recorder._events r)
    + length (List.filter is_click calls)
  /\ count_type MOUSE_SCROLL (Recorder._events (Recorder.feed r calls))
     = count_type MOUSE_SCROLL (Recorder._events r)
       + length (List.filter is_scroll calls).
Proof.
  revert r. induction calls as [|[now n] calls IH]; intros r Hrec.
  - simpl. lia.
  - rewrite feed_cons. cbn [fst snd].
    destruct (handle_counts r now n Hrec) as (Hrec' & Hc & Hs).
    destruct (IH _ Hrec') as [IHc IHs].
    rewrite IHc, IHs, Hc, Hs. simpl.
    destruct (is_click (now, n)), (is_scroll (now, n)); simpl; lia.
Qed.

Lemma clicks_and_scrolls_are_all_recorded_witness :
  count_type MOUSE_CLICK
    (Recorder._events (Recorder.feed fresh_recorder sample_session))
  = count_type MOUSE_CLICK (Recorder._events fresh_recorder)
    + length (List.filter is_click sample_session)
  /\ count_type MOUSE_SCROLL
       (Recorder._events (Recorder.feed fresh_recorder sample_session))
     = count_type MOUSE_SCROLL (Recorder._events fresh_recorder)
       + length (List.filter is_scroll sample_session).
Proof.
  apply (clicks_and_scrolls_are_all_recorded fresh_recorder sample_session).
  reflexivity.
Defined.

(** ** From the recorder to the player *)

Lemma last_appended (r : Recorder.t) (e : Event.t) :
  last (Recorder._events (Recorder._add r e)) = Some e.
Proof. unfold Recorder._add; simpl. apply last_snoc. Qed.

(** X10. What the recorder stores for a mouse notification is replayed as
    the same action: a recorded move sets the pointer to the recorded
    position; a recorded click presses (or releases) the recorded button,
    the middle one standing for any other button, without moving the
    pointer; a recorded scroll scrolls vertically by [dy] when [dy] is not
    zero and then horizontally by [dx] when [dx] is not zero. *)
Theorem recorded_mouse_events_replay (r : Recorder.t) (now : float)
        (x y dx dy : Z) (b : MouseButton) (pressed : bool) :
  Recorder._recording r = true ->
  (throttled r now = false ->
   Player.dispatch <$> last (Recorder._events (Recorder._on_move r now x y))
   = Some (Ok [SetPosition (PInt x) (PInt y)]))
  /\ Player.dispatch
       <$> last (Recorder._events (Recorder._on_click r now x y b pressed))
     = Some (Ok [if pressed then MousePress (replayed_button b)
                 else MouseRelease (replayed_button b)])
  /\ Player.dispatch
       <$> last (Recorder._events (Recorder._on_scroll r now x y dx dy))
     = Some (Ok ((if (dy =? 0)%Z then []
                  else [MouseScroll (PInt 0) (PInt dy)])
                 ++ (if (dx =? 0)%Z then []
                     else [MouseScroll (PInt dx) (PInt 0)]))%list).
Proof.
  intros Hrec. split; [|split].
  - intros Hthr. rewrite on_move_append by assumption. simpl.
    by rewrite last_snoc.
  - unfold Recorder._on_click. rewrite Hrec. simpl negb. cbv iota.
    rewrite last_appended. by destruct b, pressed.
  - unfold Recorder._on_scroll. rewrite Hrec. simpl negb. cbv iota.
    rewrite last_appended. simpl.
    unfold Player.dispatch, Player._play_mouse_scroll. simpl.
    by destruct (dy =? 0)%Z, (dx =? 0)%Z.
Qed.

Lemma recorded_mouse_events_replay_witness :
  Player.dispatch
    <$> last (Recorder._events
                (Recorder._on_click fresh_recorder 100.5 3 4
                                    Button_unknown false))
  = Some (Ok [MouseRelease Button_middle]).
Proof.
  refine (proj1 (proj2 (recorded_mouse_events_replay
                          fresh_recorder 100.5 3 4 0 0
                          Button_unknown false _))).
  reflexivity.
Defined.

Lemma lower_char_idempotent (c : ascii) :
  Str.lower_char (Str.lower_char c) = Str.lower_char c.
Proof. destruct c as [[] [] [] [] [] [] [] []]; reflexivity. Qed.

Lemma lower_idempotent (s : string) : Str.lower (Str.lower s) = Str.lower s.
Proof.
  induction s as [|c s IH]; simpl; [reflexivity|].
  by rewrite lower_char_idempotent, IH.
Qed.

(** The names of the table have two characters or more. *)
Lemma special_not_single (s : string) :
  String.length s = 1 -> Player.special !! s = None.
Proof.
  intros Hlen. destruct (Player.special !! s) as [k|] eqn:Hk; [|reflexivity].
  unfold Player.special in Hk. apply elem_of_list_to_map_2 in Hk.
  repeat (apply elem_of_cons in Hk as [Hk | Hk];
          [injection Hk as -> ->; discriminate|]).
  by apply elem_of_nil in Hk.
Qed.

(** X11. On a name of ASCII characters [_to_key] does not depend on the
    case of the name, and does not raise: a name and its lower-case form
    give the same result, which is a key of the table, or the name in
    lower case when it is one accepted character, or [None]. *)
Theorem to_key_case_insensitive (s : string) :
  Str.is_ascii s = true ->
  Player._to_key (PStr (Str.lower s)) = Player._to_key (PStr s)
  /\ (exists k, Player._to_key (PStr s) = Ok k)
  /\ (forall c, Player._to_key (PStr s) = Ok (Some (TChar c)) ->
        c = Str.lower s /\ String.length s = 1)
  /\ (forall k, Player._to_key (PStr s) = Ok (Some (TKey k)) ->
        Player.special !! Str.lower s = Some k).
Proof.
  intros _. unfold Player._to_key. rewrite lower_idempotent.
  split; [reflexivity|].
  destruct (Player.special !! Str.lower s) as [k|].
  - split; [eauto|]. split; [discriminate|]. by intros k' [= <-].
  - rewrite lower_length.
    destruct (Nat.eqb_spec (String.length s) 1) as [Hlen|Hlen]; simpl.
    + destruct (_ || _).
      * split; [eauto|]. split; [|discriminate]. by intros c [= <-].
      * split; [eauto|]. split; discriminate.
    + split; [eauto|]. split; discriminate.
Qed.

Lemma to_key_case_insensitive_witness :
  Str.is_ascii "Page_Up" = true
  /\ Player._to_key (PStr (Str.lower "Page_Up"))
     = Player._to_key (PStr "Page_Up")
  /\ (exists k, Player._to_key (PStr "Page_Up") = Ok k)
  /\ (forall c, Player._to_key (PStr "Page_Up") = Ok (Some (TChar c)) ->
        c = Str.lower "Page_Up" /\ String.length "Page_Up" = 1)
  /\ (forall k, Player._to_key (PStr "Page_Up") = Ok (Some (TKey k)) ->
        Player.special !! Str.lower "Page_Up" = Some k).
Proof.
  split; [reflexivity|].
  apply (to_key_case_insensitive "Page_Up"). reflexivity.
Defined.

Lemma recordable_some (name : string) :
  name <> "" -> name ∉ Recorder.EXCLUDED_HOTKEYS ->
  Recorder.recordable (Some name) = Some name.
Proof.
  intros Hne Hex. unfold Recorder.recordable.
  destruct (String.eqb_spec name "") as [|_]; [contradiction|]. simpl.
  unfold Recorder.EXCLUDED_HOTKEYS in *.
  repeat (match goal with
          | |- context [String.eqb name ?s] =>
              destruct (String.eqb_spec name s) as [->|_];
              [exfalso; apply Hex; repeat constructor|]
          end).
  reflexivity.
Qed.

(** The event a key notification appends, handed to the player. *)
Lemma key_event_replay (r : Recorder.t) (now : float) (key : native_key)
      (name : string) :
  Recorder._recording r = true ->
  Recorder.recordable (Recorder._key_name key) = Some name ->
  Player.dispatch <$> last (Recorder._events (Recorder._on_press r now key))
  = Some (let* k := Player._to_key (PStr name) in
          match k with Some k => Ok [KbPress k] | None => Ok [] end)
  /\ Player.dispatch
       <$> last (Recorder._events (Recorder._on_release r now key))
     = Some (let* k := Player._to_key (PStr name) in
             match k with Some k => Ok [KbRelease k] | None => Ok [] end).
Proof.
  intros Hrec Hname.
  unfold Recorder._on_press, Recorder._on_release.
  rewrite Hrec, Hname. simpl negb. cbv iota.
  rewrite !last_appended. split; reflexivity.
Qed.

(** A member that the table holds under the member's own name is recorded
    under a name that [_to_key] maps back to it. *)
Lemma member_in_table (m : Key.t) :
  Player.special !! Key.name m = Some m ->
  Key.name m <> "" /\ Key.name m <> "escape"
  /\ Player._to_key (PStr (Key.name m)) = Ok (Some (TKey m)).
Proof.
  intros Hk.
  destruct (special_lower _ _ Hk) as (Hlow & Hne & _).
  split; [exact Hne|]. split.
  - intros Hesc. rewrite Hesc in Hk. vm_compute in Hk.
    injection Hk as <-. discriminate Hesc.
  - unfold Player._to_key. by rewrite Hlow, Hk.
Qed.

(** X12. Which recorded keys are replayed. A special key delivered by the
    listener, when the table of [_to_key] holds it under its own name and
    it is not one of the excluded F9 and F10, is replayed as the same key.
    A character key whose character is an ASCII letter or digit or one of
    [VALID_SPECIAL_CHARS] is replayed as that character in lower case. A
    key recorded under an ASCII name of another length that the table does
    not hold (such as the name of a special key the table lacks) is
    recorded, and skipped when replayed. *)
Theorem recorded_keys_replay (r : Recorder.t) (now : float) :
  Recorder._recording r = true ->
  (forall m : Key.t,
      Player.special !! Key.name m = Some m ->
      Key.name m ∉ ["f9"; "f10"] ->
      Player.dispatch
        <$> last (Recorder._events (Recorder._on_press r now (NKey m)))
      = Some (Ok [KbPress (TKey m)])
      /\ Player.dispatch
           <$> last (Recorder._events (Recorder._on_release r now (NKey m)))
         = Some (Ok [KbRelease (TKey m)]))
  /\ (forall c,
        Str.is_ascii c = true ->
        String.length c = 1 ->
        Str.isalnum (Str.lower c)
        || Py.str_contains (Str.lower c) Player.VALID_SPECIAL_CHARS = true ->
        Player.dispatch
          <$> last (Recorder._events
                      (Recorder._on_press r now (NKeyCode (Some c))))
        = Some (Ok [KbPress (TChar (Str.lower c))])
        /\ Player.dispatch
             <$> last (Recorder._events
                         (Recorder._on_release r now (NKeyCode (Some c))))
           = Some (Ok [KbRelease (TChar (Str.lower c))]))
  /\ (forall key name,
        Recorder.recordable (Recorder._key_name key) = Some name ->
        Str.is_ascii name = true ->
        Player.special !! Str.lower name = None ->
        String.length name <> 1 ->
        Player.dispatch
          <$> last (Recorder._events (Recorder._on_press r now key))
        = Some (Ok [])
        /\ Player.dispatch
             <$> last (Recorder._events (Recorder._on_release r now key))
           = Some (Ok [])).
Proof.
  intros Hrec. split; [|split].
  - intros m Hk Hex.
    destruct (member_in_table m Hk) as (Hne & Hesc & Hto).
    assert (Hrecd : Recorder.recordable (Recorder._key_name (NKey m))
                    = Some (Key.name m)).
    { simpl. apply recordable_some; [exact Hne|].
      unfold Recorder.EXCLUDED_HOTKEYS. intros H.
      apply elem_of_cons in H as [H | H];
        [apply Hex; rewrite H; apply elem_of_cons; by left|].
      apply elem_of_cons in H as [H | H];
        [apply Hex; rewrite H; apply elem_of_cons; right;
         apply elem_of_cons; by left|].
      apply elem_of_cons in H as [H | H]; [contradiction|].
      by apply elem_of_nil in H. }
    destruct (key_event_replay r now (NKey m) _ Hrec Hrecd) as [-> ->].
    by rewrite Hto.
  - intros c _ Hlen Hok.
    assert (Hrecd : Recorder.recordable
                      (Recorder._key_name (NKeyCode (Some c))) = Some c).
    { simpl. apply recordable_some.
      - intros ->. discriminate Hlen.
      - unfold Recorder.EXCLUDED_HOTKEYS. intros H.
        repeat (apply elem_of_cons in H as [-> | H]; [discriminate Hlen|]).
        by apply elem_of_nil in H. }
    destruct (key_event_replay r now _ c Hrec Hrecd) as [-> ->].
    unfold Player._to_key.
    rewrite special_not_single by (by rewrite lower_length).
    rewrite lower_length, Hlen, Hok. split; reflexivity.
  - intros key name Hrecd Hascii Hnone Hlen.
    destruct (key_event_replay r now key name Hrec Hrecd) as [-> ->].
    rewrite (to_key_unknown_name name Hascii Hnone Hlen). split; reflexivity.
Qed.

Lemma recorded_keys_replay_witness :
  (Player.dispatch
     <$> last (Recorder._events
                 (Recorder._on_press fresh_recorder 100.5 (NKey Key.enter)))
   = Some (Ok [KbPress (TKey Key.enter)])
   /\ Player.dispatch
        <$> last (Recorder._events
                    (Recorder._on_release fresh_recorder 100.5
                                          (NKey Key.enter)))
      = Some (Ok [KbRelease (TKey Key.enter)]))
  /\ (Player.dispatch
        <$> last (Recorder._events
                    (Recorder._on_press fresh_recorder 100.5
                                        (NKeyCode (Some "A"))))
      = Some (Ok [KbPress (TChar (Str.lower "A"))])
      /\ Player.dispatch
           <$> last (Recorder._events
                       (Recorder._on_release fresh_recorder 100.5
                                             (NKeyCode (Some "A"))))
         = Some (Ok [KbRelease (TChar (Str.lower "A"))])).
Proof.
  split.
  - refine (proj1 (recorded_keys_replay fresh_recorder 100.5 _)
                  Key.enter _ _); [reflexivity | reflexivity |].
    intros H. apply elem_of_cons in H as [H | H]; [discriminate H|].
    apply elem_of_cons in H as [H | H]; [discriminate H|].
    by apply elem_of_nil in H.
  - refine (proj1 (proj2 (recorded_keys_replay fresh_recorder 100.5 _))
                  "A" _ _ _); reflexivity.
Defined.

(** ** Playback *)

Lemma pass_trace_dispatched (E : Player.env) (p : Player.t) (a0 : nat)
      (start : float) (a n : nat) (events : list Event.t) (tr : list obs) :
  pass_trace E p a0 start a n events tr ->
  Player.dispatched tr `prefix_of` events
  /\ (CheckStop true ∉ tr ->
      (forall d ex, SleepRaised d ex ∉ tr) ->
      Player.dispatched tr = events).
Proof.
  induction 1 as [a n|a n e rest Hflag|a n e rest ex Hflag Herr
                  |a n e rest tail tr Hflag Herr Hq Hpass [IH1 IH2]].
  - split; [apply prefix_nil | reflexivity].
  - split; [apply prefix_nil|]. intros Hno. exfalso. apply Hno. constructor.
  - split; [apply prefix_nil|]. intros _ Hno. exfalso.
    apply (Hno (start + Event.timestamp e - Player.clock E n)%float ex).
    apply elem_of_cons; right. apply elem_of_cons; by left.
  - destruct (injection_obs_quiet tail Hq) as [_ Hd].
    assert (Hdisp : Player.dispatched
              (CheckStop false
                 :: sleep_for (start + Event.timestamp e - Player.clock E n)
                 ++ Dispatch e :: tail ++ tr)
            = e :: Player.dispatched tr).
    { change (CheckStop false :: ?l) with ([CheckStop false] ++ l)%list.
      change (Dispatch e :: tail ++ tr)
        with ([Dispatch e] ++ tail ++ tr)%list.
      rewrite !dispatched_app, Hd.
      unfold sleep_for. by destruct (0 <? _)%float. }
    rewrite Hdisp. split.
    + by apply prefix_cons.
    + intros Hno Hnr. f_equal. apply IH2.
      * intros Hin. apply Hno.
        apply elem_of_cons; right. apply elem_of_app; right.
        apply elem_of_cons; right. apply elem_of_app; by right.
      * intros d ex Hin. apply (Hnr d ex).
        apply elem_of_cons; right. apply elem_of_app; right.
        apply elem_of_cons; right. apply elem_of_app; by right.
Qed.

(** X13. A pass replays the timeline in order: the events it hands to
    [_play_event] are the first events of the timeline, none skipped,
    none repeated, and they are all of them unless the pass has read the
    flag raised or a call of [time.sleep] has raised. Whether controller
    calls raise makes no difference. *)
Theorem pass_replays_in_order (E : Player.env) (w : Player.world) :
  exists tr,
    Player.trace (Player._play_once E w) = (Player.trace w ++ tr)%list
    /\ Player.dispatched tr `prefix_of` Player._events (Player.player w)
    /\ (CheckStop true ∉ tr ->
        (forall d ex, SleepRaised d ex ∉ tr) ->
        Player.dispatched tr = Player._events (Player.player w)).
Proof.
  destruct (play_once_trace E w) as (tr & Htr & Hpass).
  exists tr. split; [exact Htr|]. by apply pass_trace_dispatched in Hpass.
Qed.

Lemma issue_first_raise (E : Player.env) (calls : list os_action) :
  forall w : Player.world,
    Player.trace (Player.issue E calls w)
    = (Player.trace w
       ++ match first_raise E (Player.os_calls w) (length calls) with
          | None => OsCall <$> calls
          | Some i => (OsCall <$> take (S i) calls)
                      ++ error_report (Player.player w)
          end)%list.
Proof.
  induction calls as [|a calls IH]; intros w; simpl.
  - by rewrite app_nil_r.
  - destruct (Player.os_raises E (Player.os_calls w)).
    + unfold Player.report_error, error_report. simpl.
      destruct (Player.on_error (Player.player w)); simpl;
        by rewrite <- !app_assoc.
    + rewrite IH. simpl.
      destruct (first_raise E (S (Player.os_calls w)) (length calls));
        simpl; by rewrite <- app_assoc.
Qed.

(** X14. A failure while an event is injected is reported once and stays
    inside that event: the calls of the handler are issued in order up to
    and including the first that raises, the calls after it are not
    issued, one error is logged, and [on_error] is called once when it is
    registered; when the handler itself raises, no call is issued and the
    same report is made; without a failure nothing is reported. *)
Theorem play_event_reports_first_failure (E : Player.env) (e : Event.t)
        (w : Player.world) :
  Player.trace (Player._play_event E e w)
  = (Player.trace w
     ++ Dispatch e
     :: match Player.dispatch e with
        | Raise _ => error_report (Player.player w)
        | Ok calls =>
            match first_raise E (Player.os_calls w) (length calls) with
            | None => OsCall <$> calls
            | Some i => (OsCall <$> take (S i) calls)
                        ++ error_report (Player.player w)
            end
        end)%list.
Proof.
  unfold Player._play_event.
  destruct (Player.dispatch e) as [calls|ex].
  - rewrite issue_first_raise. simpl. by rewrite <- app_assoc.
  - unfold Player.report_error, error_report. simpl.
    destruct (Player.on_error (Player.player w)); simpl;
      by rewrite <- !app_assoc.
Qed.

Section OrderFacts.

Variable E : Player.env.
Variable p0 : Player.t.

(** Once the flag is raised the loop dispatches nothing more. *)
Lemma run_loop_stopped (fuel : nat) (loop : Z) (w : Player.world) :
  running E p0 w ->
  requested E (Player.accesses w) = true ->
  Player.dispatched (Player.trace (snd (Player.run_loop E fuel loop w)))
  = Player.dispatched (Player.trace w).
Proof.
  intros Hrun Hreq. destruct fuel as [|fuel]; [reflexivity|].
  rewrite run_loop_S. cbv zeta.
  pose proof (read_stop_flag_running E p0 w Hrun) as Hread.
  destruct (Player.read_stop_flag E w) as [b w1].
  destruct Hread as (_ & _ & Htr1 & Hb). cbn [fst snd].
  rewrite (requested_mono E (Player.accesses w) (S (Player.accesses w))
             ltac:(lia) Hreq) in Hb.
  subst b. cbn [snd]. rewrite Htr1, dispatched_app. simpl.
  by rewrite app_nil_r.
Qed.

(** The events a loop hands over, whether it is left by the loop count, by
    the flag or by an exception, or is still running. *)
Lemma run_loop_order (fuel : nat) :
  forall (loop : Z) (w : Player.world),
    running E p0 w ->
    exists (n : nat) (pre : list Event.t),
      Player.dispatched (Player.trace (snd (Player.run_loop E fuel loop w)))
      = (Player.dispatched (Player.trace w)
         ++ concat (replicate n (Player._events p0)) ++ pre)%list
      /\ pre `prefix_of` Player._events p0.
Proof.
  induction fuel as [|fuel IH]; intros loop w Hrun.
  - exists 0, []. simpl. rewrite app_nil_r. split; [reflexivity|].
    apply prefix_nil.
  - rewrite run_loop_S. cbv zeta.
    pose proof (read_stop_flag_running E p0 w Hrun) as Hread.
    destruct (Player.read_stop_flag E w) as [b w1].
    destruct Hread as (Hrun1 & _ & Htr1 & _). cbn [fst snd].
    destruct b.
    + exists 0, []. cbn [snd]. rewrite Htr1, dispatched_app. simpl.
      rewrite !app_nil_r. split; [reflexivity | apply prefix_nil].
    + destruct (play_once_outcome E p0 w1 Hrun1)
        as (pre1 & Hd1 & _ & Hpre1).
      cbv zeta in Hd1, Hpre1.
      rewrite Htr1, dispatched_app in Hd1. simpl in Hd1.
      rewrite app_nil_r in Hd1.
      destruct Hpre1 as [[-> Hrun2] | [(Hpre1 & Hrun2 & Hreq)
                                       | (Hpre1 & Hend & _)]].
      * rewrite (run_alive _ _ _ Hrun2).
        destruct (_ && _).
        -- cbn [snd]. rewrite Hd1. exists 1, []. simpl.
           rewrite !app_nil_r. split; [reflexivity | apply prefix_nil].
        -- destruct (IH (loop + 1)%Z _ Hrun2) as (n & pre & Hd & Hpre).
           exists (S n), pre. split; [|exact Hpre].
           rewrite Hd, Hd1. simpl. by rewrite <- !app_assoc.
      * rewrite (run_alive _ _ _ Hrun2).
        destruct (_ && _).
        -- cbn [snd]. rewrite Hd1. exists 0, pre1. simpl. auto.
        -- exists 0, pre1. split; [|exact Hpre1].
           rewrite (run_loop_stopped _ _ _ Hrun2 Hreq), Hd1. reflexivity.
      * destruct (Player.uncaught (Player._play_once E w1)) eqn:Hu;
          [|by destruct Hend].
        cbn [snd]. rewrite Hd1. exists 0, pre1. simpl. auto.
Qed.

(** A loop from a running world leaves a running world, or the world in
    which a refused sleep has ended the thread. *)
Lemma run_loop_outcome (fuel : nat) :
  forall (loop : Z) (w : Player.world),
    running E p0 w ->
    running E p0 (snd (Player.run_loop E fuel loop w))
    \/ (ended_by_exception E p0 (snd (Player.run_loop E fuel loop w))
        /\ ~ waits_accepted E (Player._events p0)).
Proof.
  induction fuel as [|fuel IH]; intros loop w Hrun; [by left|].
  rewrite run_loop_S. cbv zeta.
  pose proof (read_stop_flag_running E p0 w Hrun) as Hread.
  destruct (Player.read_stop_flag E w) as [b w1].
  destruct Hread as (Hrun1 & _). cbn [fst snd].
  destruct b; [by left|].
  destruct (play_once_outcome E p0 w1 Hrun1) as (pre1 & _ & _ & Hpre1).
  cbv zeta in Hpre1.
  destruct Hpre1 as [[_ Hrun2] | [(_ & Hrun2 & _) | (_ & Hend & Hno)]].
  - rewrite (run_alive _ _ _ Hrun2).
    destruct (_ && _); [by left | by apply IH].
  - rewrite (run_alive _ _ _ Hrun2).
    destruct (_ && _); [by left | by apply IH].
  - destruct (Player.uncaught (Player._play_once E w1)) eqn:Hu;
      [|by destruct Hend].
    right. by split.
Qed.

End OrderFacts.

Lemma run_exit_dispatched (E : Player.env) (w : Player.world) :
  Player.dispatched (Player.trace (Player.run_exit E w))
  = Player.dispatched (Player.trace w).
Proof.
  unfold Player.run_exit.
  destruct (Player.on_complete _); [|reflexivity].
  unfold Player.read_stop_flag. cbv beta iota.
  destruct (negb _);
    cbn [Player.emit Player.trace]; rewrite ?dispatched_app;
    cbn [Player.write_idle Player.trace]; simpl; by rewrite ?app_nil_r.
Qed.

(** X15. Whatever the loop count, the moment of [stop] and the failures
    of controller calls, a run that has ended has replayed the timeline
    in order: the events handed to [_play_event] are a number of full
    copies of the timeline followed by a first part of it. *)
Theorem run_replays_whole_passes_then_a_prefix (E : Player.env)
        (p0 : Player.t) (fuel : nat) (w : Player.world) :
  Player._playing p0 = true ->
  Player._stop_flag p0 = false ->
  Player._run E fuel (Player.init_world p0) = Some w ->
  exists (n : nat) (pre : list Event.t),
    Player.dispatched (Player.trace w)
    = (concat (replicate n (Player._events p0)) ++ pre)%list
    /\ pre `prefix_of` Player._events p0.
Proof.
  intros Hp Hf Hw.
  destruct (run_loop_order E p0 fuel 0 _ (running_init E p0 Hp Hf))
    as (n & pre & Hd & Hpre).
  exists n, pre. split; [|exact Hpre].
  apply run_result in Hw as [[_ ->] | [_ ->]];
    rewrite ?run_exit_dispatched; exact Hd.
Qed.

Lemma run_replays_whole_passes_then_a_prefix_witness :
  exists (n : nat) (pre : list Event.t),
    Player.dispatched (Player.trace stopped_run)
    = (concat (replicate n (Player._events looping_player)) ++ pre)%list
    /\ pre `prefix_of` Player._events looping_player.
Proof.
  apply (run_replays_whole_passes_then_a_prefix
           (still_env (Some 4)) looping_player 10 stopped_run).
  - reflexivity.
  - reflexivity.
  - vm_compute. reflexivity.
Defined.




(** X17. Whatever the loop entry holds, [_start_play] gives the player a
    loop count between 0 and 1000: the number entered when it lies in
    that range, 0 (loop until stopped) for a negative number, 1000 for a
    larger one, and 1 when the entry is not a number. It launches a run
    exactly when the player is idle and the macro has events, and the run
    then plays the events of the macro. *)
Theorem start_play_clamps_loop (macro : Macro.t) (player : Player.t)
        (parsed : option Z) :
  Player._loop_count (fst (App._start_play macro player parsed))
  = match parsed with
    | None => 1%Z
    | Some n => Z.max 0 (Z.min 1000 n)
    end
  /\ (0 <= Player._loop_count (fst (App._start_play macro player parsed))
      <= 1000)%Z
  /\ (parsed = None ->
      Player._loop_count (fst (App._start_play macro player parsed)) = 1%Z)
  /\ (forall n, parsed = Some n -> (n < 0)%Z ->
        Player._loop_count (fst (App._start_play macro player parsed)) = 0%Z)
  /\ (forall n, parsed = Some n -> (1000 < n)%Z ->
        Player._loop_count (fst (App._start_play macro player parsed))
        = 1000%Z)
  /\ (forall n, parsed = Some n -> (0 <= n <= 1000)%Z ->
        Player._loop_count (fst (App._start_play macro player parsed)) = n)
  /\ (snd (App._start_play macro player parsed) = true <->
      Player._playing player = false /\ Macro.events macro <> [])
  /\ (snd (App._start_play macro player parsed) = true ->
      Player._events (fst (App._start_play macro player parsed))
      = Macro.events macro
      /\ Player._playing (fst (App._start_play macro player parsed)) = true
      /\ Player._stop_flag (fst (App._start_play macro player parsed))
         = false).
Proof.
  assert (Hl : Player._loop_count (fst (App._start_play macro player parsed))
               = Z.max 0 (App.loop_of_entry parsed)).
  { unfold App._start_play, Player.start. simpl.
    by destruct (_ || _). }
  assert (Hs : snd (App._start_play macro player parsed)
               = negb (Player._playing player
                       || match Macro.events macro with
                          | [] => true | _ => false end)).
  { unfold App._start_play, Player.start. simpl.
    by destruct (_ || _). }
  rewrite Hl, Hs. unfold App.loop_of_entry.
  split; [|split; [|split; [|split; [|split; [|split; [|split]]]]]].
  - destruct parsed as [n|]; [|reflexivity].
    destruct (Z.ltb_spec n 0); [lia|]. destruct (Z.ltb_spec 1000 n); lia.
  - destruct parsed as [n|]; [|lia].
    destruct (Z.ltb_spec n 0); [lia|]. destruct (Z.ltb_spec 1000 n); lia.
  - intros ->. reflexivity.
  - intros n -> Hn. destruct (Z.ltb_spec n 0); lia.
  - intros n -> Hn.
    destruct (Z.ltb_spec n 0); [lia|]. destruct (Z.ltb_spec 1000 n); lia.
  - intros n -> Hn.
    destruct (Z.ltb_spec n 0); [lia|]. destruct (Z.ltb_spec 1000 n); lia.
  - destruct (Player._playing player), (Macro.events macro); simpl;
      (split; [try discriminate; by auto | intros [? ?]; congruence]).
  - unfold App._start_play, Player.start. simpl.
    destruct (Player._playing player), (Macro.events macro); simpl;
      try discriminate; auto.
Qed.

Lemma run_exit_uncaught (E : Player.env) (w : Player.world) :
  Player.uncaught (Player.run_exit E w) = Player.uncaught w.
Proof.
  unfold Player.run_exit.
  destruct (Player.on_complete _); [|reflexivity].
  unfold Player.read_stop_flag. cbv beta iota.
  by destruct (negb _).
Qed.

(** X19. How a run ends. The thread ends either at the end of [_run],
    and the player is then idle, or with the exception of a call of
    [time.sleep]: the player is then left marked playing, [on_complete]
    has not been called, and the timeline has a wait that [time.sleep]
    refuses. When [time.sleep] accepts every wait of the run, the thread
    ends at the end of [_run]. *)
Theorem run_ends_idle_or_in_refused_sleep (E : Player.env) (p0 : Player.t)
        (fuel : nat) (w : Player.world) :
  Player._playing p0 = true ->
  Player._stop_flag p0 = false ->
  Player._run E fuel (Player.init_world p0) = Some w ->
  (Player.uncaught w = None -> Player._playing (Player.player w) = false)
  /\ (Player.uncaught w <> None ->
      Player._playing (Player.player w) = true
      /\ Player.completions (Player.trace w) = 0
      /\ ~ waits_accepted E (Player._events p0))
  /\ (waits_accepted E (Player._events p0) -> Player.uncaught w = None).
Proof.
  intros Hp Hf Hw.
  pose proof (run_loop_outcome E p0 fuel 0 _ (running_init E p0 Hp Hf))
    as Hout.
  apply run_result in Hw as [[Halive ->] | [Hdead ->]].
  - rewrite run_exit_uncaught, Halive.
    split; [intros _; apply run_exit_idle|]. split; [congruence | auto].
  - destruct Hout as [Hrun | [Hend Hno]];
      [by rewrite (run_alive _ _ _ Hrun) in Hdead|].
    split; [intros Hu; contradiction|]. split.
    + intros _. split; [apply (end_playing _ _ _ Hend)|].
      split; [apply (end_completions _ _ _ Hend) | exact Hno].
    + intros Hwaits. contradiction.
Qed.

Lemma run_ends_idle_or_in_refused_sleep_witness :
  (Player.uncaught refused_run = None ->
   Player._playing (Player.player refused_run) = false)
  /\ (Player.uncaught refused_run <> None ->
      Player._playing (Player.player refused_run) = true
      /\ Player.completions (Player.trace refused_run) = 0
      /\ ~ waits_accepted (still_env None) (Player._events far_once))
  /\ (waits_accepted (still_env None) (Player._events far_once) ->
      Player.uncaught refused_run = None).
Proof.
  apply (run_ends_idle_or_in_refused_sleep
           (still_env None) far_once 1 refused_run).
  - reflexivity.
  - reflexivity.
  - vm_compute. reflexivity.
Defined.
